(** * flash_card.py: the word-rotation and progress-tracking engine

    A shallow embedding of the engine of [src/flash_card.py]: the loaders
    [load_words] and [load_progress], [save_progress], the round engine
    [get_new_word], the keyboard dispatcher [on_key_press], the two resets
    and the list switch [on_list_change]; and of the presentation, the
    labels [update_display] fills and the font fitting of
    [adjust_font_size].  [on_configure], which scales fonts in floating
    point, and the layout of the widgets in [main] are left out. *)

From Stdlib Require Import Ascii String.
From Stdlib Require QArith_base.
From Stdlib Require Import DecimalString.
From stdpp Require Import gmap strings list fin_maps.

Set Default Proof Using "Type".

(* ===================================================================== *)
(** ** Python strings *)
(* ===================================================================== *)

(** A Python [str] is a sequence of Unicode code points; a code point is a
    number.  ASCII literals of the source are written [py "..."]. *)
Abbreviation pystr := (list N).

Definition py (s : string) : pystr :=
  Ascii.N_of_ascii <$> String.list_ascii_of_string s.

(** [str.isspace] on one code point: the white-space code points of
    CPython's Unicode database. *)
Definition isspace (c : N) : bool :=
  ((9 <=? c) && (c <=? 13) || (28 <=? c) && (c <=? 32)
   || (c =? 133) || (c =? 160) || (c =? 5760)
   || (8192 <=? c) && (c <=? 8202)
   || (c =? 8232) || (c =? 8233) || (c =? 8239) || (c =? 8287)
   || (c =? 12288))%N.

Fixpoint lstrip (s : pystr) : pystr :=
  match s with
  | c :: s' => if isspace c then lstrip s' else s
  | [] => []
  end.

Definition rstrip (s : pystr) : pystr := reverse (lstrip (reverse s)).

(** [s.strip()] *)
Definition strip (s : pystr) : pystr := rstrip (lstrip s).

(** [c.lower()] on the ASCII letters.  The source only compares the result
    with ["q"] and ["n"], and no code point outside [A-Z] lowers to one of
    these two letters. *)
Definition lower_char (c : N) : N :=
  if ((65 <=? c) && (c <=? 90))%N then (c + 32)%N else c.

Definition lower (s : pystr) : pystr := lower_char <$> s.

(* ===================================================================== *)
(** ** Data model *)
(* ===================================================================== *)

(** The dictionaries [{'word': ..., 'definition': ...}] built by
    [load_words]. *)
Record WordEntry := mkWord { word : pystr; definition : pystr }.

#[global] Instance WordEntry_eq_dec : EqDecision WordEntry.
Proof. solve_decision. Defined.

(** The exceptions the library calls of the source can raise; all of them
    are subclasses of [Exception], which is what the source catches. *)
Inductive exn := OSError | UnicodeDecodeError | JSONDecodeError | CsvError.

(** Result of running Python code on a store [S]: it returns a value or
    raises, and in both cases leaves a store behind (an exception does not
    undo the assignments made before it). *)
Inductive result (S A : Type) : Type :=
| Returns (a : A) (s : S)
| Raises (e : exn) (s : S).
Arguments Returns {S A} a s.
Arguments Raises {S A} e s.

Definition M (S A : Type) : Type := S -> result S A.

Definition ret {S A} (a : A) : M S A := fun s => Returns a s.
Definition raise {S A} (e : exn) : M S A := fun s => Raises e s.

Definition bind {S A B} (m : M S A) (k : A -> M S B) : M S B :=
  fun s => match m s with
           | Returns a s' => k a s'
           | Raises e s' => Raises e s'
           end.

(** [try: body  except Exception as e: handler e] *)
Definition try_except {S A} (body : M S A) (handler : exn -> M S A) : M S A :=
  fun s => match body s with
           | Returns a s' => Returns a s'
           | Raises e s' => handler e s'
           end.

(** An assignment statement. *)
Definition modify {S} (f : S -> S) : M S unit := fun s => Returns tt (f s).

Definition gets {S A} (f : S -> A) : M S A := fun s => Returns (f s) s.

Notation "x <- m ;; k" := (bind m (fun x => k))
  (at level 100, m at next level, right associativity).
Notation "m ;; k" := (bind m (fun _ => k))
  (at level 100, right associativity).

(** The store a call leaves behind, whether it returns or raises. *)
Definition state_of {S A} (r : result S A) : S :=
  match r with Returns _ s => s | Raises _ s => s end.

(* ===================================================================== *)
(** ** Word source: [load_words] *)
(* ===================================================================== *)

(** What iterating [csv.reader(f)] yields: rows (lists of columns) up to the
    end of the file, or up to a row at which the reader raises (undecodable
    bytes, a malformed quoted field). *)
Inductive rows :=
| Eof
| Row (row : list pystr) (rest : rows)
| RowError (e : exn).

(** A path of the file system as [load_words] sees it. *)
Inductive csv_file :=
| CsvAbsent                         (* os.path.exists(filename) is False *)
| CsvOpenFails (e : exn)            (* it exists but open() raises *)
| CsvOpens (rs : rows).

Definition os_path_exists (f : csv_file) : bool :=
  match f with CsvAbsent => false | _ => true end.

Definition open_csv {S} (f : csv_file) : M S rows :=
  match f with
  | CsvAbsent => raise OSError
  | CsvOpenFails e => raise e
  | CsvOpens rs => ret rs
  end.

(** The body of [for row in reader:]; the local variable [words] is the
    store. *)
Definition load_words_row (row : list pystr) : M (list WordEntry) unit :=
  match row with
  | [] => ret tt                                           (* continue *)
  | col0 :: cols =>
      let word := strip col0 in
      let definition := match cols with
                        | col1 :: _ => strip col1          (* len(row) > 1 *)
                        | [] => []
                        end in
      modify (fun words => words ++ [mkWord word definition])
  end.

Fixpoint load_words_loop (rs : rows) : M (list WordEntry) unit :=
  match rs with
  | Eof => ret tt
  | RowError e => raise e
  | Row row rest => load_words_row row ;; load_words_loop rest
  end.

(** [load_words(filename)], run on a file system [fs]; it touches no global,
    so it is generic in the store [S] of its caller. *)
Definition load_words {S} (fs : pystr -> csv_file) (filename : pystr)
  : M S (list WordEntry) :=
  fun s =>
    let words : list WordEntry := [] in
    if negb (os_path_exists (fs filename)) then Returns words s
    else
      match try_except
              (rs <- open_csv (fs filename) ;; load_words_loop rs)
              (fun e => ret tt)                            (* print(...) *)
              words
      with
      | Returns _ words => Returns words s
      | Raises e _ => Raises e s
      end.

(* ===================================================================== *)
(** ** Progress store: [load_progress], [save_progress] *)
(* ===================================================================== *)

(** What [json.load] returns for the root of a document.  The source only
    asks whether it is a [dict]; a mapping is taken in the format the
    program itself writes, list identifiers to arrays of word strings.
    [load_progress] keeps a mapping with entries of another shape as it
    finds it, and [set(...)] in [main] and in [on_list_change] raises
    [TypeError] on an entry that is not iterable or that holds a list or a
    mapping; such documents are not values of this type, and what is
    said of [main] below is said of the runs in which it has returned. *)
Inductive json :=
| JObject (d : gmap pystr (list pystr))
| JArray | JString | JNumber | JBool | JNull.

(** [progress.json] on disk. *)
Inductive progress_file :=
| NoFile                            (* os.path.exists(progress_file) is False *)
| Unreadable (e : exn)              (* open() or json.load raises e *)
| Holds (j : json).                 (* json.load returns j *)

(** How an attempt to write [progress.json] ends: the document is on disk,
    or [open]/[json.dump] raises and leaves the file in some state. *)
Inductive write_result :=
| WriteOk
| WriteFails (e : exn) (after : progress_file).

(** The module-level globals, and the progress file. *)
Record State := mkState {
  disk : progress_file;
  progress_data : gmap pystr (list pystr);
  current_list : pystr;
  words : list WordEntry;
  remembered_words : gset pystr;
  current : option WordEntry;
  round_list : list WordEntry;
  revealed : bool;
}.

Definition set_disk (f : progress_file) (s : State) : State :=
  mkState f (progress_data s) (current_list s) (words s)
          (remembered_words s) (current s) (round_list s) (revealed s).
Definition set_progress_data (d : gmap pystr (list pystr)) (s : State) : State :=
  mkState (disk s) d (current_list s) (words s)
          (remembered_words s) (current s) (round_list s) (revealed s).
Definition set_current_list (l : pystr) (s : State) : State :=
  mkState (disk s) (progress_data s) l (words s)
          (remembered_words s) (current s) (round_list s) (revealed s).
Definition set_words (ws : list WordEntry) (s : State) : State :=
  mkState (disk s) (progress_data s) (current_list s) ws
          (remembered_words s) (current s) (round_list s) (revealed s).
Definition set_remembered_words (r : gset pystr) (s : State) : State :=
  mkState (disk s) (progress_data s) (current_list s) (words s)
          r (current s) (round_list s) (revealed s).
Definition set_current (c : option WordEntry) (s : State) : State :=
  mkState (disk s) (progress_data s) (current_list s) (words s)
          (remembered_words s) c (round_list s) (revealed s).
Definition set_round_list (q : list WordEntry) (s : State) : State :=
  mkState (disk s) (progress_data s) (current_list s) (words s)
          (remembered_words s) (current s) q (revealed s).
Definition set_revealed (b : bool) (s : State) : State :=
  mkState (disk s) (progress_data s) (current_list s) (words s)
          (remembered_words s) (current s) (round_list s) b.

Definition json_load (f : progress_file) : M State json :=
  match f with
  | NoFile => raise OSError
  | Unreadable e => raise e
  | Holds j => ret j
  end.

(** [load_progress()] *)
Definition load_progress : M State (gmap pystr (list pystr)) :=
  (fun s =>
     match disk s with
     | NoFile => modify (set_progress_data ∅) s
     | _ =>
         try_except
           (loaded <- json_load (disk s) ;;
            match loaded with
            | JObject d => modify (set_progress_data d)
            | _ => modify (set_progress_data ∅)   (* not isinstance(loaded, dict) *)
            end)
           (fun e => modify (set_progress_data ∅)) s
     end) ;;
  (fun s =>
     match progress_data s !! current_list s with
     | None => modify (set_progress_data (<[current_list s := []]> (progress_data s))) s
     | Some _ => ret tt s
     end) ;;
  gets progress_data.

(** [json.dump(progress_data, f)] inside [with open(progress_file, "w")]. *)
Definition json_dump (w : write_result) : M State unit :=
  fun s =>
    match w with
    | WriteOk => Returns tt (set_disk (Holds (JObject (progress_data s))) s)
    | WriteFails e after => Raises e (set_disk after s)
    end.

(** [save_progress()] *)
Definition save_progress (w : write_result) : M State unit :=
  try_except (json_dump w) (fun e => ret tt).

(* ===================================================================== *)
(** ** Round engine: [get_new_word] *)
(* ===================================================================== *)

(** [random.shuffle] puts a list in an order of its choosing: any function
    that returns a permutation of its argument. *)
Record Shuffler := mkShuffler {
  permute :> list WordEntry -> list WordEntry;
  permute_perm : forall l, permute l ≡ₚ l;
}.

(** [w['word'] not in remembered_words] *)
Definition unremembered (r : gset pystr) (w : WordEntry) : Prop :=
  word w ∉ r.

#[global] Instance unremembered_dec r w : Decision (unremembered r w).
Proof. unfold unremembered. apply _. Defined.

(** [get_new_word()] *)
Definition get_new_word (sh : Shuffler) (s : State) : State :=
  let s := set_round_list
             (filter (unremembered (remembered_words s)) (round_list s)) s in
  let s := match round_list s with
           | [] => set_round_list
                     (sh (filter (unremembered (remembered_words s)) (words s))) s
           | _ :: _ => s
           end in
  let s := match round_list s with
           | [] => set_current None s
           | w :: rest => set_round_list rest (set_current (Some w) s)   (* pop(0) *)
           end in
  set_revealed false s.

(* ===================================================================== *)
(** ** Session controller *)
(* ===================================================================== *)

(** What the outside world answers during one callback: the orders chosen
    by the calls of [random.shuffle] (the callback's own, and the one inside
    [get_new_word]), the answer to [messagebox.askyesno], the fate of the
    write in [save_progress], and the CSV files. *)
Record Env := mkEnv {
  shuffle : Shuffler;
  reshuffle : Shuffler;
  askyesno : bool;
  write : write_result;
  csv : pystr -> csv_file;
}.

(** A tkinter key event: [event.keysym] and [event.char]. *)
Record KeyEvent := mkKey { keysym : pystr; char : pystr }.

(** [reset_current()] *)
Definition reset_current (env : Env) : M State unit :=
  if askyesno env then
    modify (set_remembered_words ∅) ;;
    modify (fun s => set_progress_data (<[current_list s := []]> (progress_data s)) s) ;;
    save_progress (write env) ;;
    modify (fun s => set_round_list (words s) s) ;;              (* words.copy() *)
    modify (fun s => set_round_list (shuffle env (round_list s)) s) ;;
    modify (get_new_word (reshuffle env))
  else ret tt.

(** [reset_all()] *)
Definition reset_all (env : Env) : M State unit :=
  if askyesno env then
    modify (fun s => set_progress_data ((fun _ => []) <$> progress_data s) s) ;;
    modify (set_remembered_words ∅) ;;
    save_progress (write env) ;;
    modify (fun s => set_round_list (words s) s) ;;
    modify (fun s => set_round_list (shuffle env (round_list s)) s) ;;
    modify (get_new_word (reshuffle env))
  else ret tt.

(** [on_key_press(event)]; [root.destroy()] and [update_display()] act on
    the window only.  [list(remembered_words)] is [elements]: the order in
    which Python lists a set is left open by the language, and nothing
    below depends on it. *)
Definition on_key_press (event : KeyEvent) (env : Env) : M State unit :=
  fun s =>
  if bool_decide (lower (keysym event) = py "q") then ret tt s
  else if bool_decide (keysym event = py "Return") then
    match current s with
    | None => ret tt s
    | Some _ =>
        if negb (revealed s) then modify (set_revealed true) s
        else modify (get_new_word (reshuffle env)) s
    end
  else if bool_decide (keysym event = py "space") then
    match current s with
    | None => ret tt s
    | Some c =>
        (modify (fun s => set_remembered_words ({[word c]} ∪ remembered_words s) s) ;;
         modify (fun s => set_progress_data
                            (<[current_list s := elements (remembered_words s)]>
                               (progress_data s)) s) ;;
         save_progress (write env)) s
    end
  else if bool_decide (lower (char event) = py "n") then
    match current s with
    | None => ret tt s
    | Some _ =>
        if revealed s then modify (get_new_word (reshuffle env)) s
        else ret tt s
    end
  else if bool_decide (char event = py "r") then reset_current env s
  else if bool_decide (char event = py "R") then reset_all env s
  else ret tt s.

(** [f"vocabulary_csv/{current_list}.csv"] *)
Definition csv_path (list_name : pystr) : pystr :=
  py "vocabulary_csv/" ++ list_name ++ py ".csv".

(** [on_list_change(new_value)] *)
Definition on_list_change (new_value : pystr) (env : Env) : M State unit :=
  modify (set_current_list new_value) ;;
  ws <- (fun s => load_words (csv env) (csv_path (current_list s)) s) ;;
  modify (set_words ws) ;;
  (fun s =>
     match progress_data s !! current_list s with
     | None => modify (set_progress_data (<[current_list s := []]> (progress_data s))) s
     | Some _ => ret tt s
     end) ;;
  modify (fun s => set_remembered_words
                     (list_to_set (default [] (progress_data s !! current_list s))) s) ;;
  modify (fun s => set_round_list
                     (filter (unremembered (remembered_words s)) (words s)) s) ;;
  modify (fun s => set_round_list (shuffle env (round_list s)) s) ;;
  modify (get_new_word (reshuffle env)).

(** The globals as the module body leaves them, over a progress file [f]. *)
Definition module_globals (f : progress_file) : State :=
  mkState f ∅ (py "list1") [] ∅ None [] false.

(** The engine part of [main()], up to [root.mainloop()]. *)
Definition main (env : Env) : M State unit :=
  load_progress ;;
  ws <- (fun s => load_words (csv env) (csv_path (current_list s)) s) ;;
  modify (set_words ws) ;;                                      (* words[:] = ... *)
  modify (fun s => set_remembered_words
                     (remembered_words s ∪
                      list_to_set (default [] (progress_data s !! current_list s))) s) ;;
  modify (fun s => set_round_list
                     (filter (unremembered (remembered_words s)) (words s)) s) ;;
  modify (fun s => set_round_list (shuffle env (round_list s)) s) ;;
  modify (get_new_word (reshuffle env)).

(** The callbacks [main] registers: the key binding, the two buttons and
    the list menu. *)
Inductive Event :=
| Key (event : KeyEvent)            (* root.bind("<Key>", on_key_press) *)
| ClickUpdate                       (* command=reset_current *)
| ClickUpdateAll                    (* command=reset_all *)
| SelectList (new_value : pystr).   (* command=on_list_change *)

Definition handle (ev : Event) (env : Env) : M State unit :=
  match ev with
  | Key event => on_key_press event env
  | ClickUpdate => reset_current env
  | ClickUpdateAll => reset_all env
  | SelectList new_value => on_list_change new_value env
  end.

(** The main loop on a sequence of events, each with the world's answers. *)
Fixpoint mainloop (evs : list (Event * Env)) : M State unit :=
  match evs with
  | [] => ret tt
  | (ev, env) :: evs' => handle ev env ;; mainloop evs'
  end.

(** The states the program can be in: after [main] and any events. *)
Definition reachable (s : State) : Prop :=
  exists f env0 evs, (main env0 ;; mainloop evs) (module_globals f) = Returns tt s.

(* ===================================================================== *)
(** ** Definitions used to state the properties *)
(* ===================================================================== *)

(** The file [save_progress] leaves behind. *)
Definition disk_after (w : write_result) (s : State) : progress_file :=
  match w with
  | WriteOk => Holds (JObject (progress_data s))
  | WriteFails _ after => after
  end.

(** The entry the word source gives for a row, in the words of the
    specification: none for an empty row; otherwise the first column
    trimmed, and the second column trimmed, or the empty string when there
    is no second column. *)
Definition entry_of_row (row : list pystr) : option WordEntry :=
  match row !! 0%nat with
  | None => None
  | Some col0 =>
      Some {| word := strip col0;
              definition := match row !! 1%nat with
                            | Some col1 => strip col1
                            | None => []
                            end |}
  end.

(** The commands of the key dispatch, in the order [on_key_press] tests
    for them. *)
Inductive command :=
| CmdQuit | CmdReturn | CmdSpace | CmdSkip | CmdReset | CmdResetAll | CmdNone.

Definition command_of (event : KeyEvent) : command :=
  if bool_decide (lower (keysym event) = py "q") then CmdQuit
  else if bool_decide (keysym event = py "Return") then CmdReturn
  else if bool_decide (keysym event = py "space") then CmdSpace
  else if bool_decide (lower (char event) = py "n") then CmdSkip
  else if bool_decide (char event = py "r") then CmdReset
  else if bool_decide (char event = py "R") then CmdResetAll
  else CmdNone.

(** The state after a sequence of events. *)
Definition run (evs : list (Event * Env)) (s : State) : State :=
  state_of (mainloop evs s).

(** The callback clears or replaces the remembered set: a reset the user
    confirms, or a list switch. *)
Definition clears (ev : Event) (env : Env) : bool :=
  match ev with
  | Key event =>
      match command_of event with
      | CmdReset | CmdResetAll => askyesno env
      | _ => false
      end
  | ClickUpdate | ClickUpdateAll => askyesno env
  | SelectList _ => true
  end.

(** The key press moves on to the next word: Return on a revealed
    definition, or the skip key on a revealed definition. *)
Definition advances (ev : Event) (s : State) : bool :=
  match ev with
  | Key event =>
      match command_of event with
      | CmdReturn | CmdSkip => bool_decide (is_Some (current s)) && revealed s
      | _ => false
      end
  | _ => false
  end.

(** Every entry of the list is remembered (so also when the list is
    empty). *)
Definition all_remembered (s : State) : Prop :=
  forall e, e ∈ words s -> word e ∈ remembered_words s.

(** The entries of [words] that are not remembered, and the entries the
    next [get_new_word] finds in the queue. *)
Definition pending (s : State) : list WordEntry :=
  filter (unremembered (remembered_words s)) (words s).

Definition queue (s : State) : list WordEntry :=
  filter (unremembered (remembered_words s)) (round_list s).

(** A round has just been opened on the order [p]: [p] is a permutation of
    the entries not remembered, its head is displayed and its tail is the
    queue. *)
Definition round_opened (p : list WordEntry) (s : State) : Prop :=
  p ≡ₚ pending s /\ option_list (current s) ++ round_list s = p.

(** [in_round s0 s shown]: [s] is reached from [s0] by key presses that
    stay within the round opened at [s0] (no reset, no list switch, and
    every advance finds the queue non-empty), and [shown] lists the
    entries [current] has been set to, in order. *)
Inductive in_round (s0 : State) : State -> list WordEntry -> Prop :=
| round_first : in_round s0 s0 (option_list (current s0))
| round_other s shown ev env :
    in_round s0 s shown ->
    clears ev env = false -> advances ev s = false ->
    in_round s0 (state_of (handle ev env s)) shown
| round_next s shown ev env :
    in_round s0 s shown ->
    advances ev s = true -> queue s <> [] ->
    in_round s0 (state_of (handle ev env s))
             (shown ++ option_list (current (state_of (handle ev env s)))).

(** What holds of every state the program reaches: the displayed entry and
    the queue are taken from [words], each entry at most as often as it
    is there; and nothing is displayed only if everything is remembered. *)
Definition engine_inv (s : State) : Prop :=
  option_list (current s) ++ round_list s ⊆+ words s
  /\ (current s = None -> all_remembered s).

(** The three keys of the drill, as tkinter reports them. *)
Definition key_return : KeyEvent := mkKey (py "Return") [13%N].
Definition key_space : KeyEvent := mkKey (py "space") (py " ").
Definition key_n : KeyEvent := mkKey (py "n") (py "n").

(** Pressing the space key once per [env]. *)
Definition spaces (envs : list Env) : list (Event * Env) :=
  (fun env => (Key key_space, env)) <$> envs.

(** Invariant I3 of the specification. *)
Definition I3 (s : State) : Prop := current s = None <-> all_remembered s.

(** More than one word that is not remembered. *)
Definition several_pending (s : State) : Prop :=
  exists e1 e2, e1 ∈ pending s /\ e2 ∈ pending s /\ word e1 <> word e2.

(** P6 of the specification at the state [s], for the skip key: the skip
    remembers nothing, and shows another word when several are pending. *)
Definition skip_changes_word (s : State) (env : Env) : Prop :=
  forall W, current s = Some W -> revealed s = true ->
    let s' := state_of (on_key_press key_n env s) in
    remembered_words s' = remembered_words s
    /\ progress_data s' = progress_data s
    /\ disk s' = disk s
    /\ (several_pending s ->
        exists W', current s' = Some W' /\ word W' <> word W).

(** P4 of the specification for the Return key at the state [s]: two
    presses in a row leave the definition revealed and the word in place,
    and a press on a revealed definition does nothing. *)
Definition reveal_idempotent (s : State) (env1 env2 : Env) : Prop :=
  (is_Some (current s) ->
   let s2 := run [(Key key_return, env1); (Key key_return, env2)] s in
   revealed s2 = true /\ current s2 = current s)
  /\ (current s = None \/ revealed s = true ->
      state_of (on_key_press key_return env1 s) = s).

(** The store has an entry for the current list and for ["list1"], the
    list a fresh start begins with. *)
Definition has_entries (s : State) : Prop :=
  is_Some (progress_data s !! current_list s)
  /\ is_Some (progress_data s !! py "list1").

(** The rows [csv.reader] yields before the file ends or the reader
    raises. *)
Fixpoint rows_before (rs : rows) : list (list pystr) :=
  match rs with
  | Row row rest => row :: rows_before rest
  | Eof | RowError _ => []
  end.

(** The rows [load_words] gets to see in a file. *)
Definition rows_read (f : csv_file) : list (list pystr) :=
  match f with
  | CsvOpens rs => rows_before rs
  | CsvAbsent | CsvOpenFails _ => []
  end.

(** The mapping [load_progress] finds on disk: the root of the document
    when it is a mapping, the empty mapping otherwise. *)
Definition loaded_store (f : progress_file) : gmap pystr (list pystr) :=
  match f with
  | Holds (JObject d) => d
  | _ => ∅
  end.

(** [d] with an empty entry added for [l] when it has none. *)
Definition ensure_list (l : pystr) (d : gmap pystr (list pystr))
  : gmap pystr (list pystr) :=
  match d !! l with
  | None => <[l := []]> d
  | Some _ => d
  end.

(** The round trip of the specification for the store of [s], with a write
    that succeeds: [load_progress] after [save_progress] returns the store
    that was saved. *)
Definition roundtrip_exact (s : State) : Prop :=
  exists s', (save_progress WriteOk ;; load_progress) s
             = Returns (progress_data s) s'.

(** [load_progress] returns the empty dictionary. *)
Definition loads_empty (s : State) : Prop :=
  exists s', load_progress s = Returns ∅ s'.

(** The order [get_new_word] takes its next entry from: the queue without
    the remembered entries or, when nothing is left of it, a fresh shuffle
    of the entries not remembered. *)
Definition next_round (sh : Shuffler) (s : State) : list WordEntry :=
  match queue s with
  | [] => sh (pending s)
  | _ :: _ => queue s
  end.

(** The state the space key leaves when [c] is displayed. *)
Definition marked (w : write_result) (c : WordEntry) (s : State) : State :=
  let r := {[word c]} ∪ remembered_words s in
  let d := <[current_list s := elements r]> (progress_data s) in
  let s := set_progress_data d (set_remembered_words r s) in
  set_disk (disk_after w s) s.

(** The states the two resets and the list switch leave. *)
Definition after_reset_current (env : Env) (s : State) : State :=
  let s := set_remembered_words ∅ s in
  let s := set_progress_data (<[current_list s := []]> (progress_data s)) s in
  let s := set_disk (disk_after (write env) s) s in
  get_new_word (reshuffle env) (set_round_list (shuffle env (words s)) s).

Definition after_reset_all (env : Env) (s : State) : State :=
  let s := set_progress_data ((fun _ => []) <$> progress_data s) s in
  let s := set_remembered_words ∅ s in
  let s := set_disk (disk_after (write env) s) s in
  get_new_word (reshuffle env) (set_round_list (shuffle env (words s)) s).

Definition after_list_change (new_value : pystr) (env : Env) (s : State) : State :=
  let s := set_current_list new_value s in
  let s := set_words
             (omap entry_of_row (rows_read (csv env (csv_path (current_list s))))) s in
  let s := set_progress_data (ensure_list (current_list s) (progress_data s)) s in
  let s := set_remembered_words
             (list_to_set (default [] (progress_data s !! current_list s))) s in
  let s := set_round_list (shuffle env (pending s)) s in
  get_new_word (reshuffle env) s.

(** The state [main] leaves when the main loop starts. *)
Definition after_main (env : Env) (s : State) : State :=
  let s := set_progress_data
             (ensure_list (current_list s) (loaded_store (disk s))) s in
  let s := set_words
             (omap entry_of_row (rows_read (csv env (csv_path (current_list s))))) s in
  let s := set_remembered_words
             (remembered_words s ∪
              list_to_set (default [] (progress_data s !! current_list s))) s in
  let s := set_round_list (shuffle env (pending s)) s in
  get_new_word (reshuffle env) s.

(** The rows of a file that is read to its end. *)
Definition to_rows (l : list (list pystr)) : rows := foldr Row Eof l.

(** The sentence of the specification on unusable rows, for a row none of
    whose columns has anything but white space in it: a file with that one
    row gives no entry. *)
Definition unusable_row_skipped (row : list pystr) : Prop :=
  Forall (fun col => strip col = []) row ->
  forall (fs : pystr -> csv_file) (filename : pystr),
    fs filename = CsvOpens (to_rows [row]) ->
    load_words fs filename tt = Returns [] tt.

(* ===================================================================== *)
(** ** Sample data *)
(* ===================================================================== *)

Module Sample.

Definition cat : WordEntry := mkWord (py "cat") [29483%N].    (* 猫 *)
Definition dog : WordEntry := mkWord (py "dog") [].           (* no definition *)

(** Two shufflers: one keeps the order, one reverses it. *)
Definition keep : Shuffler :=
  mkShuffler (fun l => l) (fun l => reflexivity l).

Definition backwards : Shuffler :=
  mkShuffler (@reverse WordEntry) (@reverse_Permutation WordEntry).

(** [vocabulary_csv/list1.csv] with the rows [ cat ,猫], an empty row and
    [dog]; no other list exists. *)
Definition list1_rows : list (list pystr) :=
  [[py " cat "; [29483%N]]; []; [py "dog"]].

Definition fs (path : pystr) : csv_file :=
  if bool_decide (path = csv_path (py "list1"))
  then CsvOpens (to_rows list1_rows) else CsvAbsent.

Definition env (sh : Shuffler) (yes : bool) (w : write_result) : Env :=
  mkEnv sh sh yes w fs.

Definition quiet : Env := env keep true WriteOk.

(** The program started on these files with no progress file: [cat] is
    displayed and [dog] waits in the queue. *)
Definition started : State := state_of (main quiet (module_globals NoFile)).

Definition press (k : KeyEvent) : Event * Env := (Key k, quiet).

(** The end of the first round: [cat] was shown, then [dog], whose
    definition is now revealed; the queue is empty. *)
Definition round_over : State :=
  run [press key_return; press key_return; press key_return] started.

(** The start state after the space key: [cat] is remembered and still
    displayed. *)
Definition cat_marked : State := run [press key_space] started.

End Sample.

(* ===================================================================== *)
(** ** Font size: [adjust_font_size] *)
(* ===================================================================== *)

(** A [tkFont.Font] of one family: what [font.measure(text)] and
    [font.metrics("linespace")] answer, in pixels, once the font has been
    configured at a size. *)
Record Font := mkFont { measure : Z -> pystr -> Z; linespace : Z -> Z }.

(** The loop [for char in text:] of [get_wrapped_height], on the local
    variables [lines] and [current_line]. *)
Fixpoint wrap_loop (measure_text : pystr -> Z) (max_width : Z) (text : pystr)
    (lines : list pystr) (current_line : pystr) : list pystr * pystr :=
  match text with
  | [] => (lines, current_line)
  | char :: text' =>
      if (measure_text (current_line ++ [char]) <=? max_width)%Z
      then wrap_loop measure_text max_width text' lines (current_line ++ [char])
      else wrap_loop measure_text max_width text' (lines ++ [current_line]) [char]
  end.

(** [lines] when [get_wrapped_height] returns. *)
Definition wrapped_lines (measure_text : pystr -> Z) (max_width : Z)
    (text : pystr) : list pystr :=
  let '(lines, current_line) := wrap_loop measure_text max_width text [] [] in
  match current_line with
  | [] => lines
  | _ :: _ => lines ++ [current_line]                       (* if current_line: *)
  end.

(** [get_wrapped_height(text, font, max_width)], the font being configured
    at [size]. *)
Definition get_wrapped_height (text : pystr) (font : Font) (size : Z)
    (max_width : Z) : Z :=
  Z.of_nat (length (wrapped_lines (measure font size) max_width text))
  * linespace font size.

(** [wrapped_height <= available_height]; the height available is any
    number, among them the halves that [on_configure] passes. *)
Definition fits (text : pystr) (font : Font) (available_width : Z)
    (available_height : QArith_base.Q) (size : Z) : bool :=
  QArith_base.Qle_bool
    (QArith_base.inject_Z (get_wrapped_height text font size available_width))
    available_height.

(** The loop [while size > 1:]; it is entered at most [size - 1] times. *)
Fixpoint adjust_loop (fuel : nat) (text : pystr) (available_width : Z)
    (available_height : QArith_base.Q) (font : Font) (size : Z) : Z :=
  match fuel with
  | O => size
  | S fuel' =>
      if (1 <? size)%Z then
        if fits text font available_width available_height size then size
        else adjust_loop fuel' text available_width available_height font (size - 1)
      else size
  end.

(** [adjust_font_size(text, available_width, available_height, family,
    initial_size)], the family being given by its font. *)
Definition adjust_font_size (text : pystr) (available_width : Z)
    (available_height : QArith_base.Q) (font : Font) (initial_size : Z) : Z :=
  adjust_loop (Z.to_nat (initial_size - 1)) text available_width
              available_height font initial_size.

(** A font whose characters are all [size] pixels wide and high. *)
Definition square_font : Font :=
  mkFont (fun size text => size * Z.of_nat (length text))%Z (fun size => size).

(* ===================================================================== *)
(** ** Presentation: [update_display] and the callbacks with it *)
(* ===================================================================== *)

(** The texts of the three labels [main] creates. *)
Record Labels := mkLabels {
  progress_label : pystr;
  word_label : pystr;
  def_label : pystr;
}.

(** The globals of the engine together with the labels. *)
Record Gui := mkGui { engine : State; labels : Labels }.

(** Engine code run inside the window: it leaves the labels alone. *)
Definition on_engine {A} (m : M State A) : M Gui A :=
  fun g => match m (engine g) with
           | Returns a s => Returns a (mkGui s (labels g))
           | Raises e s => Raises e (mkGui s (labels g))
           end.

(** [label.config(text=t)] for each of the labels. *)
Definition config_progress (t : pystr) : M Gui unit :=
  modify (fun g => mkGui (engine g)
                         (mkLabels t (word_label (labels g)) (def_label (labels g)))).
Definition config_word (t : pystr) : M Gui unit :=
  modify (fun g => mkGui (engine g)
                         (mkLabels (progress_label (labels g)) t (def_label (labels g)))).
Definition config_def (t : pystr) : M Gui unit :=
  modify (fun g => mkGui (engine g)
                         (mkLabels (progress_label (labels g)) (word_label (labels g)) t)).

(** [str(n)] for a length: its decimal digits. *)
Definition str_nat (n : nat) : pystr :=
  py (NilZero.string_of_uint (Nat.to_uint n)).

(** The literals of [update_display], by code point. *)
Definition text_remembered : pystr := [35760; 20303; 58; 32]%N.   (* "记住: " *)
Definition text_total : pystr := [32; 47; 32; 24635; 58; 32]%N.   (* " / 总: " *)
Definition text_all_remembered : pystr :=                         (* "全部单词已记住" *)
  [20840; 37096; 21333; 35789; 24050; 35760; 20303]%N.

(** [f"记住: {len(remembered_words)} / 总: {len(words)}"] *)
Definition progress_text (s : State) : pystr :=
  text_remembered ++ str_nat (size (remembered_words s))
  ++ text_total ++ str_nat (length (words s)).

(** [update_display()] *)
Definition update_display : M Gui unit :=
  fun g =>
    let s := engine g in
    match current s with
    | None =>
        (config_progress (progress_text s) ;;
         config_word text_all_remembered ;;
         config_def []) g
    | Some c =>
        (config_progress (progress_text s) ;;
         config_word (word c) ;;
         config_def (if revealed s then definition c else [])) g
    end.

(** [reset_current()] and [reset_all()] with the [update_display()] that
    ends their confirmed branch, [on_list_change(new_value)] with the one
    that ends it. *)
Definition reset_current_gui (env : Env) : M Gui unit :=
  if askyesno env then on_engine (reset_current env) ;; update_display
  else ret tt.

Definition reset_all_gui (env : Env) : M Gui unit :=
  if askyesno env then on_engine (reset_all env) ;; update_display
  else ret tt.

Definition on_list_change_gui (new_value : pystr) (env : Env) : M Gui unit :=
  on_engine (on_list_change new_value env) ;; update_display.

(** [on_key_press(event)] with its calls of [update_display()]. *)
Definition on_key_press_gui (event : KeyEvent) (env : Env) : M Gui unit :=
  fun g =>
  let s := engine g in
  if bool_decide (lower (keysym event) = py "q") then ret tt g
  else if bool_decide (keysym event = py "Return") then
    match current s with
    | None => ret tt g
    | Some _ =>
        ((if negb (revealed s) then on_engine (modify (set_revealed true))
          else on_engine (modify (get_new_word (reshuffle env)))) ;;
         update_display) g
    end
  else if bool_decide (keysym event = py "space") then
    match current s with
    | None => ret tt g
    | Some c =>
        (on_engine
           (modify (fun s => set_remembered_words ({[word c]} ∪ remembered_words s) s)) ;;
         on_engine
           (modify (fun s => set_progress_data
                               (<[current_list s := elements (remembered_words s)]>
                                  (progress_data s)) s)) ;;
         on_engine (save_progress (write env)) ;;
         update_display) g
    end
  else if bool_decide (lower (char event) = py "n") then
    match current s with
    | None => ret tt g
    | Some _ =>
        if revealed s
        then (on_engine (modify (get_new_word (reshuffle env))) ;; update_display) g
        else ret tt g
    end
  else if bool_decide (char event = py "r") then reset_current_gui env g
  else if bool_decide (char event = py "R") then reset_all_gui env g
  else ret tt g.

(** [main()] up to [root.mainloop()]: the engine part, the three labels as
    they are created, and the first [update_display()]. *)
Definition main_gui (env : Env) : M Gui unit :=
  on_engine (main env) ;;
  modify (fun g => mkGui (engine g) (mkLabels (progress_text (engine g)) [] [])) ;;
  update_display.

Definition handle_gui (ev : Event) (env : Env) : M Gui unit :=
  match ev with
  | Key event => on_key_press_gui event env
  | ClickUpdate => reset_current_gui env
  | ClickUpdateAll => reset_all_gui env
  | SelectList new_value => on_list_change_gui new_value env
  end.

Fixpoint mainloop_gui (evs : list (Event * Env)) : M Gui unit :=
  match evs with
  | [] => ret tt
  | (ev, env) :: evs' => handle_gui ev env ;; mainloop_gui evs'
  end.

(** The window states the program can be in; before [main] the labels do
    not exist, so any texts stand for them. *)
Definition gui_reachable (g : Gui) : Prop :=
  exists f l0 env0 evs,
    (main_gui env0 ;; mainloop_gui evs) (mkGui (module_globals f) l0)
    = Returns tt g.

(** The texts [update_display] leaves on the labels. *)
Definition shown_labels (s : State) : Labels :=
  match current s with
  | None => mkLabels (progress_text s) text_all_remembered []
  | Some c => mkLabels (progress_text s) (word c)
                       (if revealed s then definition c else [])
  end.

(* ===================================================================== *)
(** ** Further definitions: what the callbacks leave behind *)
(* ===================================================================== *)

(** [progress_data.get(l, [])] *)
Definition stored (l : pystr) (d : gmap pystr (list pystr)) : list pystr :=
  default [] (d !! l).

(** The event is a press of the space key. *)
Definition is_mark (ev : Event) : bool :=
  match ev with
  | Key event => match command_of event with CmdSpace => true | _ => false end
  | _ => false
  end.

(** The remembered set is the one stored for the current list. *)
Definition in_step (s : State) : Prop :=
  remembered_words s = list_to_set (stored (current_list s) (progress_data s)).

(** The file and the store record the same progress for every list, an
    absent entry counting as an empty one. *)
Definition disk_agrees (s : State) : Prop :=
  forall l, stored l (loaded_store (disk s)) = stored l (progress_data s).

(** The string neither starts nor ends with a white-space code point. *)
Definition trimmed (t : pystr) : Prop :=
  (forall c, head t = Some c -> isspace c = false)
  /\ (forall c, last t = Some c -> isspace c = false).

(** When the words of the list are distinct, no entry of the queue is
    remembered. *)
Definition queue_clean (s : State) : Prop :=
  NoDup (word <$> words s) ->
  Forall (unremembered (remembered_words s)) (round_list s).

(* ===================================================================== *)
(** * Properties *)
(* ===================================================================== *)

(** ** Running the callbacks *)

Lemma save_progress_eq w s :
  save_progress w s = Returns tt (set_disk (disk_after w s) s).
Proof. destruct w; reflexivity. Qed.

Lemma load_words_row_eq row ws :
  load_words_row row ws = Returns tt (ws ++ option_list (entry_of_row row)).
Proof.
  destruct row as [|col0 [|col1 cols]]; cbn.
  - by rewrite app_nil_r.
  - reflexivity.
  - reflexivity.
Qed.

(** ** What [strip] removes *)

Lemma lstrip_split s :
  exists pre, s = pre ++ lstrip s /\ forallb isspace pre = true.
Proof.
  induction s as [|c s [pre [Hs Hpre]]]; cbn.
  - by exists [].
  - destruct (isspace c) eqn:Hc.
    + exists (c :: pre). cbn. rewrite Hc, Hpre. split; [by f_equal|done].
    + by exists [].
Qed.

Lemma lstrip_head s c : head (lstrip s) = Some c -> isspace c = false.
Proof.
  induction s as [|d s IH]; cbn; [done|].
  destruct (isspace d) eqn:Hd; [done|]. cbn. by intros [= <-].
Qed.

(** [strip] cuts white space off both ends, and nothing else: what is left
    neither starts nor ends with a white-space code point. *)
Lemma strip_spec s :
  exists pre post,
    s = pre ++ strip s ++ post /\
    forallb isspace pre = true /\ forallb isspace post = true /\
    (forall c, head (strip s) = Some c -> isspace c = false) /\
    (forall c, last (strip s) = Some c -> isspace c = false).
Proof.
  unfold strip, rstrip.
  destruct (lstrip_split s) as [pre [Hs Hpre]].
  destruct (lstrip_split (reverse (lstrip s))) as [post [Hr Hpost]].
  set (u := lstrip (reverse (lstrip s))) in *.
  assert (Ht : lstrip s = reverse u ++ reverse post).
  { by rewrite <- reverse_app, <- Hr, reverse_involutive. }
  exists pre, (reverse post). split_and!.
  - by rewrite <- Ht.
  - exact Hpre.
  - rewrite forallb_forall in Hpost. apply forallb_forall.
    intros c Hc. apply Hpost.
    rewrite <- list_elem_of_In in *. by rewrite elem_of_reverse in Hc.
  - intros c Hc. rewrite head_reverse in Hc.
    apply (lstrip_head s). rewrite <- last_reverse, Hr.
    apply last_app_Some. by left.
  - intros c Hc. rewrite last_reverse in Hc.
    by apply (lstrip_head (reverse (lstrip s))).
Qed.

Lemma load_words_loop_eq rs ws :
  state_of (load_words_loop rs ws) = ws ++ omap entry_of_row (rows_before rs).
Proof.
  revert ws. induction rs as [|row rest IH|e]; intros ws; cbn.
  - by rewrite app_nil_r.
  - unfold bind. rewrite load_words_row_eq.
    specialize (IH (ws ++ option_list (entry_of_row row))).
    destruct (load_words_loop rest _); cbn in *; rewrite IH;
      destruct (entry_of_row row); cbn; by rewrite <- ?app_assoc, ?app_nil_r.
  - by rewrite app_nil_r.
Qed.

Lemma load_words_eq {S} (fs : pystr -> csv_file) (filename : pystr) (s : S) :
  load_words fs filename s
    = Returns (omap entry_of_row (rows_read (fs filename))) s.
Proof.
  unfold load_words, try_except, bind.
  destruct (fs filename) as [|e|rs]; cbn; try reflexivity.
  pose proof (load_words_loop_eq rs []) as H.
  destruct (load_words_loop rs []); cbn in *; by rewrite H.
Qed.

Lemma rows_before_to_rows l : rows_before (to_rows l) = l.
Proof. induction l as [|row l IH]; cbn; [done|]. f_equal. exact IH. Qed.

Lemma strip_trimmed t : trimmed (strip t).
Proof. destruct (strip_spec t) as (pre & post & _ & _ & _ & Hh & Hl). by split. Qed.

(** C8 (as amended): [load_words] returns, for the rows it reads from the
    file, one entry per row that has a column, in order: the first column
    trimmed as [word] and the second column trimmed as [definition], the
    empty string when the row has no second column.  Trimming cuts white
    space off both ends and nothing else.  Only a row without any column
    gives no entry; a file that does not exist gives the empty list. *)
Theorem load_words_rows {S} (fs : pystr -> csv_file) (filename : pystr) (s : S) :
  load_words fs filename s
    = Returns (omap entry_of_row (rows_read (fs filename))) s
  /\ entry_of_row [] = None
  /\ (forall col0, entry_of_row [col0] = Some (mkWord (strip col0) []))
  /\ (forall col0 col1 cols,
        entry_of_row (col0 :: col1 :: cols) = Some (mkWord (strip col0) (strip col1)))
  /\ (forall t, exists pre post,
        t = pre ++ strip t ++ post
        /\ forallb isspace pre = true /\ forallb isspace post = true
        /\ trimmed (strip t))
  /\ (forall row, is_Some (entry_of_row row) <-> row <> [])
  /\ (forall l, rows_read (CsvOpens (to_rows l)) = l)
  /\ rows_read CsvAbsent = [].
Proof.
  split_and!; try reflexivity.
  - apply load_words_eq.
  - intros t. destruct (strip_spec t) as (pre & post & Ht & Hpre & Hpost & _).
    exists pre, post. split_and!; try done. apply strip_trimmed.
  - intros row. destruct row as [|col0 cols]; cbn.
    + split; [by intros [e He]|done].
    + split; [done|]. intros _. by eexists.
  - intros l. apply rows_before_to_rows.
Qed.

(** C8, as stated, fails on a row whose only column is blank: it has no
    usable column, and [load_words] returns an entry for it, with the
    empty word and the empty definition. *)
Lemma blank_row_kept : ~ unusable_row_skipped [py "  "].
Proof.
  intros H.
  assert (Hrow : Forall (fun col => strip col = []) [py "  "])
    by (repeat constructor).
  specialize (H Hrow (fun _ => CsvOpens (to_rows [[py "  "]])) [] eq_refl).
  vm_compute in H. discriminate.
Qed.

(** ** The progress store *)

Lemma load_progress_eq s :
  let d := ensure_list (current_list s) (loaded_store (disk s)) in
  load_progress s = Returns d (set_progress_data d s).
Proof.
  unfold load_progress, bind, try_except, ensure_list.
  destruct (disk s) as [|e|[d| | | | |]] eqn:Hd; cbn;
    try (rewrite lookup_empty; cbn; unfold gets; cbn; reflexivity).
  destruct (d !! current_list s) eqn:Hl; cbn; reflexivity.
Qed.

(** No loader and no save raises.  [load_progress] returns the dictionary
    it leaves in [progress_data]: the mapping found in the file, or no
    mapping at all when the file is absent, unreadable or its root is not
    a mapping, and in each case with an empty entry added for
    [current_list] when there is none.  [load_words] returns a list.
    [save_progress] returns, and changes nothing but the file. *)
Lemma loaders_never_raise (s : State) (fs : pystr -> csv_file)
    (filename : pystr) (w : write_result) :
  (let d := ensure_list (current_list s) (loaded_store (disk s)) in
   load_progress s = Returns d (set_progress_data d s))
  /\ loaded_store NoFile = ∅
  /\ (forall e, loaded_store (Unreadable e) = ∅)
  /\ loaded_store (Holds JArray) = ∅ /\ loaded_store (Holds JString) = ∅
  /\ loaded_store (Holds JNumber) = ∅ /\ loaded_store (Holds JBool) = ∅
  /\ loaded_store (Holds JNull) = ∅
  /\ ensure_list (current_list s) ∅ = {[ current_list s := [] ]}
  /\ load_words fs filename s
       = Returns (omap entry_of_row (rows_read (fs filename))) s
  /\ save_progress w s = Returns tt (set_disk (disk_after w s) s).
Proof.
  split_and!; try reflexivity.
  - apply load_progress_eq.
  - apply load_words_eq.
  - apply save_progress_eq.
Qed.

(** C9: with no progress file [load_progress] returns, and what it returns
    and leaves in [progress_data] is not the empty dictionary its
    docstring announces but [{"list1": []}]. *)
Theorem load_progress_without_file :
  load_progress (module_globals NoFile)
  = Returns {[ py "list1" := [] ]}
            (set_progress_data {[ py "list1" := [] ]} (module_globals NoFile))
  /\ ~ loads_empty (module_globals NoFile).
Proof.
  assert (H : load_progress (module_globals NoFile)
              = Returns {[ py "list1" := [] ]}
                  (set_progress_data {[ py "list1" := [] ]} (module_globals NoFile))).
  { rewrite load_progress_eq. reflexivity. }
  split; [exact H|].
  intros [s' H']. rewrite H in H'.
  apply (f_equal (fun r => match r with
                           | Returns d _ => d !! py "list1"
                           | Raises _ _ => None
                           end)) in H'.
  vm_compute in H'. discriminate.
Qed.


Lemma save_then_load s :
  let d := ensure_list (current_list s) (progress_data s) in
  (save_progress WriteOk ;; load_progress) s
    = Returns d (set_progress_data d
                   (set_disk (Holds (JObject (progress_data s))) s)).
Proof.
  unfold bind. rewrite save_progress_eq. cbv beta iota.
  rewrite load_progress_eq. reflexivity.
Qed.

(** ** The round engine *)

Lemma get_new_word_frame sh s :
  disk (get_new_word sh s) = disk s
  /\ progress_data (get_new_word sh s) = progress_data s
  /\ current_list (get_new_word sh s) = current_list s
  /\ words (get_new_word sh s) = words s
  /\ remembered_words (get_new_word sh s) = remembered_words s
  /\ revealed (get_new_word sh s) = false.
Proof.
  unfold get_new_word. cbn.
  destruct (filter _ (round_list s)) as [|w q]; cbn;
    [destruct (sh _) as [|w q]; cbn|]; done.
Qed.

Lemma get_new_word_next sh s :
  current (get_new_word sh s) = head (next_round sh s)
  /\ round_list (get_new_word sh s) = tail (next_round sh s).
Proof.
  unfold get_new_word, next_round, queue, pending. cbn.
  destruct (filter _ (round_list s)) as [|w q]; cbn;
    [destruct (sh _) as [|w q]; cbn|]; done.
Qed.

Lemma head_tail_option_list {A} (l : list A) :
  option_list (head l) ++ tail l = l.
Proof. by destruct l. Qed.

Lemma get_new_word_shown sh s :
  option_list (current (get_new_word sh s)) ++ round_list (get_new_word sh s)
  = next_round sh s.
Proof.
  destruct (get_new_word_next sh s) as [-> ->]. apply head_tail_option_list.
Qed.

(** Whatever [get_new_word] displays is not remembered. *)
Lemma next_round_unremembered sh s e :
  e ∈ next_round sh s -> word e ∉ remembered_words s.
Proof.
  unfold next_round, queue, pending.
  destruct (filter _ (round_list s)) as [|w q] eqn:Hq.
  - rewrite (permute_perm sh). rewrite list_elem_of_filter. by intros [? _].
  - rewrite <- Hq. rewrite list_elem_of_filter. by intros [? _].
Qed.

Lemma get_new_word_unremembered sh s e :
  current (get_new_word sh s) = Some e -> word e ∉ remembered_words s.
Proof.
  destruct (get_new_word_next sh s) as [-> _]. intros He.
  apply (next_round_unremembered sh). by apply head_Some_elem_of.
Qed.

(** ** The key dispatch *)

Lemma on_key_press_eq event env s :
  on_key_press event env s =
  match command_of event with
  | CmdQuit | CmdNone => Returns tt s
  | CmdReturn =>
      match current s with
      | None => Returns tt s
      | Some _ => if revealed s
                  then Returns tt (get_new_word (reshuffle env) s)
                  else Returns tt (set_revealed true s)
      end
  | CmdSpace =>
      match current s with
      | None => Returns tt s
      | Some c => Returns tt (marked (write env) c s)
      end
  | CmdSkip =>
      match current s with
      | None => Returns tt s
      | Some _ => if revealed s
                  then Returns tt (get_new_word (reshuffle env) s)
                  else Returns tt s
      end
  | CmdReset => reset_current env s
  | CmdResetAll => reset_all env s
  end.
Proof.
  unfold on_key_press, command_of.
  repeat case_bool_decide; try reflexivity.
  - destruct (current s); [destruct (revealed s)|]; reflexivity.
  - destruct (current s) as [c|]; [|reflexivity].
    unfold bind, modify. rewrite save_progress_eq. reflexivity.
Qed.

Lemma reset_current_eq env s :
  reset_current env s =
  Returns tt (if askyesno env then after_reset_current env s else s).
Proof.
  unfold reset_current. destruct (askyesno env); [|reflexivity].
  unfold bind, modify. rewrite save_progress_eq. reflexivity.
Qed.

Lemma reset_all_eq env s :
  reset_all env s =
  Returns tt (if askyesno env then after_reset_all env s else s).
Proof.
  unfold reset_all. destruct (askyesno env); [|reflexivity].
  unfold bind, modify. rewrite save_progress_eq. reflexivity.
Qed.

Lemma on_list_change_eq new_value env s :
  on_list_change new_value env s = Returns tt (after_list_change new_value env s).
Proof.
  unfold on_list_change, bind, modify. rewrite load_words_eq.
  unfold after_list_change, ensure_list. cbv beta iota zeta.
  destruct (progress_data _ !! current_list _); reflexivity.
Qed.

Lemma main_eq env s : main env s = Returns tt (after_main env s).
Proof.
  unfold main, bind. rewrite load_progress_eq. cbv beta iota zeta.
  rewrite load_words_eq. reflexivity.
Qed.

(** No callback raises. *)
Lemma handle_returns ev env s :
  handle ev env s = Returns tt (state_of (handle ev env s)).
Proof.
  destruct ev as [event| | |new_value]; cbn [handle].
  - rewrite on_key_press_eq.
    destruct (command_of event);
      rewrite ?reset_current_eq, ?reset_all_eq;
      try destruct (current s); try destruct (revealed s); reflexivity.
  - by rewrite reset_current_eq.
  - by rewrite reset_all_eq.
  - by rewrite on_list_change_eq.
Qed.

Lemma mainloop_eq evs s : mainloop evs s = Returns tt (run evs s).
Proof.
  unfold run. revert s. induction evs as [|[ev env] evs IH]; intros s; cbn.
  - reflexivity.
  - unfold bind. rewrite handle_returns. cbv beta iota. rewrite IH. reflexivity.
Qed.

Lemma run_cons ev env evs s :
  run ((ev, env) :: evs) s = run evs (state_of (handle ev env s)).
Proof.
  unfold run. cbn. unfold bind. rewrite handle_returns. reflexivity.
Qed.

Lemma run_app evs1 evs2 s : run (evs1 ++ evs2) s = run evs2 (run evs1 s).
Proof.
  revert s. induction evs1 as [|[ev env] evs1 IH]; intros s; [reflexivity|].
  cbn [app]. rewrite !run_cons. apply IH.
Qed.

Lemma reachable_run s :
  reachable s <->
  exists f env0 evs, s = run evs (after_main env0 (module_globals f)).
Proof.
  unfold reachable. split; intros (f & env0 & evs & H); exists f, env0, evs.
  - unfold bind in H. rewrite main_eq in H. cbv beta iota in H.
    rewrite mainloop_eq in H. congruence.
  - unfold bind. rewrite main_eq. cbv beta iota. rewrite mainloop_eq. by subst.
Qed.

(** What a callback does, by the kind of event. *)
Lemma handle_within ev env s :
  clears ev env = false ->
  (advances ev s = true /\
   state_of (handle ev env s) = get_new_word (reshuffle env) s)
  \/ (advances ev s = false /\
      (state_of (handle ev env s) = s
       \/ (is_Some (current s) /\ state_of (handle ev env s) = set_revealed true s)
       \/ (exists c, current s = Some c /\
                     state_of (handle ev env s) = marked (write env) c s))).
Proof.
  destruct ev as [event| | |new_value]; cbn [handle clears advances].
  - rewrite on_key_press_eq.
    destruct (command_of event); intros Hc;
      rewrite ?reset_current_eq, ?reset_all_eq, ?Hc;
      try (right; split; [reflexivity|left; reflexivity]);
      destruct (current s) as [c|] eqn:Hcur;
      try (right; split; [reflexivity|left; reflexivity]);
      try destruct (revealed s) eqn:Hrev;
      first [ left; split; reflexivity
            | right; split; [reflexivity|]; left; reflexivity
            | right; split; [reflexivity|]; right; left; split; [by eexists|reflexivity]
            | right; split; [reflexivity|]; right; right; by exists c ].
  - rewrite reset_current_eq. intros ->. right. split; [reflexivity|by left].
  - rewrite reset_all_eq. intros ->. right. split; [reflexivity|by left].
  - discriminate.
Qed.

Lemma handle_clears ev env s :
  clears ev env = true ->
  state_of (handle ev env s) = after_reset_current env s
  \/ state_of (handle ev env s) = after_reset_all env s
  \/ exists new_value, state_of (handle ev env s) = after_list_change new_value env s.
Proof.
  destruct ev as [event| | |new_value]; cbn [handle clears].
  - rewrite on_key_press_eq.
    destruct (command_of event); try discriminate; intros Hc;
      rewrite ?reset_current_eq, ?reset_all_eq, Hc; auto.
  - rewrite reset_current_eq. intros ->. auto.
  - rewrite reset_all_eq. intros ->. auto.
  - rewrite on_list_change_eq. eauto.
Qed.

(** ** The invariant of the engine *)

Lemma pending_nil_all_remembered s : pending s = [] -> all_remembered s.
Proof.
  intros Hp e He. destruct (decide (word e ∈ remembered_words s)) as [|Hn]; [done|].
  exfalso. by apply (filter_nil_not_elem_of _ _ e Hp Hn).
Qed.

Lemma all_remembered_pending_nil s : all_remembered s -> pending s = [].
Proof.
  intros Hall. unfold pending.
  destruct (filter _ (words s)) as [|e l] eqn:Hf; [done|].
  assert (He : e ∈ filter (unremembered (remembered_words s)) (words s))
    by (rewrite Hf; left).
  apply list_elem_of_filter in He as [Hn He]. by destruct Hn; apply Hall.
Qed.

Lemma next_round_submseteq sh s :
  round_list s ⊆+ words s -> next_round sh s ⊆+ words s.
Proof.
  intros Hq. unfold next_round.
  destruct (queue s) as [|w q] eqn:Hqueue.
  - rewrite (permute_perm sh). apply sublist_submseteq, sublist_filter.
  - rewrite <- Hqueue. etrans; [|exact Hq].
    apply sublist_submseteq, sublist_filter.
Qed.

Lemma get_new_word_inv sh s :
  round_list s ⊆+ words s -> engine_inv (get_new_word sh s).
Proof.
  intros Hq.
  destruct (get_new_word_frame sh s) as (_ & _ & _ & Hw & Hr & _).
  split.
  - rewrite get_new_word_shown, Hw. by apply next_round_submseteq.
  - destruct (get_new_word_next sh s) as [-> _]. intros Hhead.
    assert (Hnil : next_round sh s = []) by (by destruct (next_round sh s)).
    unfold next_round in Hnil. destruct (queue s); [|done].
    assert (Hp : pending s = []).
    { apply Permutation_nil_r. by rewrite <- (permute_perm sh), Hnil. }
    intros e He. rewrite Hw in He. rewrite Hr.
    by apply (pending_nil_all_remembered s).
Qed.

Lemma engine_inv_queue s : engine_inv s -> round_list s ⊆+ words s.
Proof.
  intros [H _]. etrans; [|exact H]. apply submseteq_inserts_l. done.
Qed.

Lemma engine_inv_shuffled_round (sh sh' : Shuffler) s l :
  l ⊆+ words s -> engine_inv (get_new_word sh' (set_round_list (sh l) s)).
Proof.
  intros Hl. apply get_new_word_inv. cbn. by rewrite (permute_perm sh).
Qed.

Lemma engine_inv_handle ev env s :
  engine_inv s -> engine_inv (state_of (handle ev env s)).
Proof.
  intros Hinv. destruct (clears ev env) eqn:Hc.
  - destruct (handle_clears ev env s Hc) as [->|[->|[nv ->]]].
    + apply engine_inv_shuffled_round. done.
    + apply engine_inv_shuffled_round. done.
    + apply engine_inv_shuffled_round. apply sublist_submseteq, sublist_filter.
  - destruct (handle_within ev env s Hc)
      as [[_ ->]|[_ [->|[[_ ->]|(c & Hcur & ->)]]]].
    + apply get_new_word_inv. by apply engine_inv_queue.
    + exact Hinv.
    + exact Hinv.
    + destruct Hinv as [H1 H2]. split; [exact H1|].
      cbn. rewrite Hcur. discriminate.
Qed.

Lemma engine_inv_run evs s : engine_inv s -> engine_inv (run evs s).
Proof.
  revert s. induction evs as [|[ev env] evs IH]; intros s Hs; [exact Hs|].
  rewrite run_cons. by apply IH, engine_inv_handle.
Qed.

Lemma engine_inv_reachable s : reachable s -> engine_inv s.
Proof.
  rewrite reachable_run. intros (f & env0 & evs & ->).
  apply engine_inv_run. apply engine_inv_shuffled_round.
  apply sublist_submseteq, sublist_filter.
Qed.

(** ** Remembered words are not shown again (P1) *)

Lemma handle_within_remembered ev env s :
  clears ev env = false ->
  remembered_words s ⊆ remembered_words (state_of (handle ev env s)).
Proof.
  intros Hc.
  destruct (handle_within ev env s Hc)
    as [[_ ->]|[_ [->|[[_ ->]|(c & Hcur & ->)]]]].
  - by destruct (get_new_word_frame (reshuffle env) s) as (_ & _ & _ & _ & -> & _).
  - done.
  - done.
  - cbn. set_solver.
Qed.

Lemma run_within_remembered evs s :
  Forall (fun p => clears p.1 p.2 = false) evs ->
  remembered_words s ⊆ remembered_words (run evs s).
Proof.
  intros H. revert s. induction H as [|[ev env] evs Hc _ IH]; intros s; [done|].
  rewrite run_cons. etrans; [|apply IH]. by apply handle_within_remembered.
Qed.

Lemma advances_get_new_word ev env s :
  advances ev s = true ->
  state_of (handle ev env s) = get_new_word (reshuffle env) s.
Proof.
  destruct ev as [event| | |nv]; cbn [advances handle]; try discriminate.
  rewrite on_key_press_eq.
  destruct (command_of event); try discriminate;
    destruct (current s); try discriminate;
    destruct (revealed s); cbn; try discriminate; reflexivity.
Qed.

(** C1: once [w] is in the remembered set, and as long as no confirmed
    reset and no list switch happens, no advance (Return or skip on a
    revealed definition, both of which call [get_new_word]) sets [current]
    to an entry whose word is [w]. *)
Theorem remembered_never_shown (w : pystr) (s : State)
    (evs : list (Event * Env)) (ev : Event) (env : Env) :
  w ∈ remembered_words s ->
  Forall (fun p => clears p.1 p.2 = false) evs ->
  advances ev (run evs s) = true ->
  forall c, current (run (evs ++ [(ev, env)]) s) = Some c -> word c <> w.
Proof.
  intros Hw Hevs Hadv c Hc Heq. subst w.
  rewrite run_app, run_cons in Hc.
  rewrite (advances_get_new_word _ _ _ Hadv) in Hc.
  change (run [] ?x) with x in Hc.
  apply get_new_word_unremembered in Hc. apply Hc.
  by apply (run_within_remembered evs s Hevs).
Qed.

Lemma remembered_never_shown_witness :
  py "cat" ∈ remembered_words Sample.cat_marked
  /\ current (run ([Sample.press key_return] ++ [Sample.press key_return])
                  Sample.cat_marked) = Some Sample.dog
  /\ word Sample.dog <> py "cat".
Proof.
  assert (Hw : py "cat" ∈ remembered_words Sample.cat_marked).
  { apply (bool_decide_unpack _). vm_compute. exact I. }
  assert (Hc : current (run ([Sample.press key_return] ++ [Sample.press key_return])
                            Sample.cat_marked) = Some Sample.dog).
  { vm_compute. reflexivity. }
  split_and!; [exact Hw|exact Hc|].
  apply (remembered_never_shown (py "cat") Sample.cat_marked
           [Sample.press key_return] (Key key_return) Sample.quiet Hw).
  - repeat constructor.
  - vm_compute. reflexivity.
  - exact Hc.
Defined.

(** ** When nothing is displayed (I3) *)

Lemma all_remembered_Forall s :
  all_remembered s <->
  Forall (fun e => word e ∈ remembered_words s) (words s).
Proof. unfold all_remembered. by rewrite Forall_forall. Qed.

Lemma get_new_word_I3 sh s :
  round_list s ⊆+ words s -> I3 (get_new_word sh s).
Proof.
  intros Hq. split; [apply (get_new_word_inv sh s Hq)|].
  destruct (get_new_word_frame sh s) as (_ & _ & _ & Hw & Hr & _).
  destruct (get_new_word_next sh s) as [-> _].
  unfold all_remembered. rewrite Hw, Hr. intros Hall.
  unfold next_round. rewrite (all_remembered_pending_nil s Hall).
  destruct (queue s) as [|e q] eqn:Hqueue.
  - assert (Hnil : sh [] = []) by (apply Permutation_nil_r, (permute_perm sh)).
    by rewrite Hnil.
  - exfalso.
    assert (He : e ∈ queue s) by (rewrite Hqueue; left).
    apply list_elem_of_filter in He as [Hn He]. apply Hn, Hall.
    by apply (elem_of_submseteq (round_list s)).
Qed.

Lemma handle_get_new_word_I3 ev env s :
  engine_inv s ->
  advances ev s || clears ev env = true ->
  I3 (state_of (handle ev env s)).
Proof.
  intros Hinv Hev. destruct (clears ev env) eqn:Hc.
  - destruct (handle_clears ev env s Hc) as [->|[->|[nv ->]]];
      apply get_new_word_I3; cbn; rewrite (permute_perm (shuffle env));
      first [done | apply sublist_submseteq, sublist_filter].
  - rewrite orb_false_r in Hev. rewrite (advances_get_new_word _ _ _ Hev).
    by apply get_new_word_I3, engine_inv_queue.
Qed.

(** C3 (as amended): in every state the program reaches, nothing is
    displayed only if every entry of [words] is remembered; and the two
    are equivalent right after [main] and after every callback that calls
    [get_new_word]: an advance, a skip, a confirmed reset, a list
    switch. *)
Theorem current_absent_iff (s : State) :
  reachable s ->
  (current s = None -> all_remembered s)
  /\ (forall ev env, advances ev s || clears ev env = true ->
                     I3 (state_of (handle ev env s)))
  /\ (forall f env0, I3 (after_main env0 (module_globals f))).
Proof.
  intros Hs. pose proof (engine_inv_reachable s Hs) as Hinv. split_and!.
  - apply Hinv.
  - intros ev env. by apply handle_get_new_word_I3.
  - intros f env0. apply get_new_word_I3. cbn.
    rewrite (permute_perm (shuffle env0)). apply sublist_submseteq, sublist_filter.
Qed.

Lemma sample_reachable (evs : list (Event * Env)) :
  reachable (run evs Sample.started).
Proof.
  apply reachable_run. exists NoFile, Sample.quiet, evs.
  unfold Sample.started. by rewrite main_eq.
Qed.

Lemma current_absent_iff_witness :
  (current Sample.cat_marked = None -> all_remembered Sample.cat_marked)
  /\ (forall ev env, advances ev Sample.cat_marked || clears ev env = true ->
                     I3 (state_of (handle ev env Sample.cat_marked)))
  /\ (forall f env0, I3 (after_main env0 (module_globals f))).
Proof.
  apply (current_absent_iff Sample.cat_marked).
  apply (sample_reachable [Sample.press key_space]).
Defined.

(** C3, as stated, fails in the state it singles out: after [cat] is
    marked, shown [dog] and [dog] is marked too, every word is remembered
    and [dog] is still displayed. *)
Lemma all_marked_still_displayed :
  let s := run [Sample.press key_space; Sample.press key_return;
                Sample.press key_return; Sample.press key_space]
               Sample.started in
  reachable s /\ ~ I3 s.
Proof.
  intros s. split; [apply sample_reachable|].
  intros [_ H].
  assert (Hall : all_remembered s).
  { apply all_remembered_Forall. apply (bool_decide_unpack _).
    vm_compute. exact I. }
  specialize (H Hall). vm_compute in H. discriminate.
Qed.

(** ** The space key *)

Lemma command_of_space event :
  keysym event = py "space" -> command_of event = CmdSpace.
Proof. intros H. unfold command_of. rewrite H. reflexivity. Qed.

Lemma command_of_return event :
  keysym event = py "Return" -> command_of event = CmdReturn.
Proof. intros H. unfold command_of. rewrite H. reflexivity. Qed.

Lemma space_marks event env s c :
  keysym event = py "space" -> current s = Some c ->
  on_key_press event env s = Returns tt (marked (write env) c s).
Proof.
  intros Hk Hc. rewrite on_key_press_eq, (command_of_space _ Hk), Hc. reflexivity.
Qed.

(** C4: the space key with [c] displayed returns, adds the word of [c] to
    [remembered_words], stores the elements of that set under
    [current_list] in [progress_data], writes [progress_data] to the file
    (which holds it when the write succeeds), and changes nothing else:
    [current], [revealed], [round_list], [words], [current_list] and the
    stored progress of every other list are as before. *)
Theorem mark_remembered_frame (event : KeyEvent) (env : Env) (s : State)
    (c : WordEntry) :
  keysym event = py "space" ->
  current s = Some c ->
  exists s',
    on_key_press event env s = Returns tt s'
    /\ remembered_words s' = {[word c]} ∪ remembered_words s
    /\ progress_data s'
       = <[current_list s := elements (remembered_words s')]> (progress_data s)
    /\ (forall l, l <> current_list s ->
                  progress_data s' !! l = progress_data s !! l)
    /\ (write env = WriteOk -> disk s' = Holds (JObject (progress_data s')))
    /\ current s' = current s
    /\ revealed s' = revealed s
    /\ round_list s' = round_list s
    /\ words s' = words s
    /\ current_list s' = current_list s.
Proof.
  intros Hk Hc. exists (marked (write env) c s).
  split; [by apply space_marks|]. split_and!; try reflexivity.
  - intros l Hl. cbn. by rewrite lookup_insert_ne.
  - intros Hw. cbn. by rewrite Hw.
Qed.

Lemma mark_remembered_frame_witness :
  exists s',
    on_key_press key_space Sample.quiet Sample.started = Returns tt s'
    /\ remembered_words s' = {[word Sample.cat]} ∪ remembered_words Sample.started
    /\ progress_data s'
       = <[current_list Sample.started := elements (remembered_words s')]>
           (progress_data Sample.started)
    /\ (forall l, l <> current_list Sample.started ->
                  progress_data s' !! l = progress_data Sample.started !! l)
    /\ (write Sample.quiet = WriteOk -> disk s' = Holds (JObject (progress_data s')))
    /\ current s' = current Sample.started
    /\ revealed s' = revealed Sample.started
    /\ round_list s' = round_list Sample.started
    /\ words s' = words Sample.started
    /\ current_list s' = current_list Sample.started.
Proof.
  apply (mark_remembered_frame key_space Sample.quiet Sample.started Sample.cat).
  - reflexivity.
  - vm_compute. reflexivity.
Defined.

(** ** The Return key *)

Lemma return_key_eq event env s :
  keysym event = py "Return" ->
  on_key_press event env s =
  Returns tt (match current s with
              | None => s
              | Some _ => if revealed s
                          then get_new_word (reshuffle env) s
                          else set_revealed true s
              end).
Proof.
  intros Hk. rewrite on_key_press_eq, (command_of_return _ Hk).
  destruct (current s); [destruct (revealed s)|]; reflexivity.
Qed.

(** C6 (as amended): the Return key is a no-op when nothing is displayed;
    on a hidden definition it sets [revealed] and changes nothing else;
    on a revealed definition it is not a no-op: it calls [get_new_word],
    which leaves [revealed] false.  So of two presses in a row the first
    reveals and the second advances. *)
Theorem return_reveals_then_advances (event : KeyEvent) (env : Env) (s : State) :
  keysym event = py "Return" ->
  (current s = None -> on_key_press event env s = Returns tt s)
  /\ (is_Some (current s) -> revealed s = false ->
      on_key_press event env s = Returns tt (set_revealed true s)
      /\ revealed (set_revealed true s) = true
      /\ current (set_revealed true s) = current s
      /\ set_revealed false (set_revealed true s) = set_revealed false s)
  /\ (is_Some (current s) -> revealed s = true ->
      on_key_press event env s = Returns tt (get_new_word (reshuffle env) s)
      /\ revealed (get_new_word (reshuffle env) s) = false)
  /\ (is_Some (current s) -> revealed s = false ->
      forall event' env', keysym event' = py "Return" ->
        (on_key_press event env ;; on_key_press event' env') s
        = Returns tt (get_new_word (reshuffle env') (set_revealed true s))).
Proof.
  intros Hk. split_and!.
  - intros Hc. by rewrite (return_key_eq _ _ _ Hk), Hc.
  - intros [c Hc] Hr. rewrite (return_key_eq _ _ _ Hk), Hc, Hr. done.
  - intros [c Hc] Hr. rewrite (return_key_eq _ _ _ Hk), Hc, Hr.
    split; [done|]. apply get_new_word_frame.
  - intros [c Hc] Hr event' env' Hk'. unfold bind.
    rewrite (return_key_eq _ _ _ Hk), Hc, Hr. cbv beta iota.
    rewrite (return_key_eq _ _ _ Hk'). cbn [current set_revealed revealed].
    by rewrite Hc.
Qed.

Lemma return_reveals_then_advances_witness :
  on_key_press key_return Sample.quiet Sample.started
  = Returns tt (set_revealed true Sample.started)
  /\ revealed (set_revealed true Sample.started) = true
  /\ current (set_revealed true Sample.started) = current Sample.started
  /\ set_revealed false (set_revealed true Sample.started)
     = set_revealed false Sample.started.
Proof.
  assert (Hk : keysym key_return = py "Return") by reflexivity.
  assert (Hc : is_Some (current Sample.started)).
  { exists Sample.cat. vm_compute. reflexivity. }
  assert (Hr : revealed Sample.started = false) by (vm_compute; reflexivity).
  exact (proj1 (proj2 (return_reveals_then_advances
                         key_return Sample.quiet Sample.started Hk)) Hc Hr).
Defined.

(** C6, as stated, fails from the start state of the sample: the second
    Return replaces [cat] by [dog] and hides the definition again. *)
Lemma second_return_advances :
  ~ reveal_idempotent Sample.started Sample.quiet Sample.quiet.
Proof.
  intros [H _].
  assert (Hc : is_Some (current Sample.started)).
  { exists Sample.cat. vm_compute. reflexivity. }
  destruct (H Hc) as [Hr _]. vm_compute in Hr. discriminate.
Qed.

(** ** Marking is idempotent *)

Lemma add_again (w : pystr) (r : gset pystr) : {[w]} ∪ ({[w]} ∪ r) = {[w]} ∪ r.
Proof. by rewrite (assoc_L (∪)), (idemp_L (∪)). Qed.

Lemma marked_again w w' c s : marked w' c (marked w c s) = marked w' c s.
Proof.
  unfold marked.
  cbn [remembered_words progress_data current_list disk words current
       round_list revealed set_disk set_progress_data set_remembered_words
       disk_after].
  rewrite add_again, insert_insert_eq. destruct w'; reflexivity.
Qed.

Lemma run_spaces envs env c s :
  current s = Some c ->
  run (spaces (envs ++ [env])) s = marked (write env) c s.
Proof.
  revert s. induction envs as [|env0 envs IH]; intros s Hc;
    unfold spaces in *; cbn [fmap list_fmap app]; rewrite run_cons; cbn [handle].
  - rewrite (space_marks key_space env s c eq_refl Hc). reflexivity.
  - rewrite (space_marks key_space env0 s c eq_refl Hc). cbn [state_of].
    rewrite (IH (marked (write env0) c s) Hc). apply marked_again.
Qed.

(** C10: after any number (at least one) of presses of the space key with
    [c] displayed, the remembered set is the old one with the word of [c]
    added, so unchanged when that word was already in it, and the list
    stored for [current_list] holds exactly the remembered words, each
    once; the file holds that store when the last write succeeds. *)
Theorem marking_idempotent (s : State) (c : WordEntry)
    (envs : list Env) (env : Env) :
  current s = Some c ->
  let s' := run (spaces (envs ++ [env])) s in
  remembered_words s' = {[word c]} ∪ remembered_words s
  /\ (word c ∈ remembered_words s -> remembered_words s' = remembered_words s)
  /\ (exists l, progress_data s' !! current_list s' = Some l
                /\ NoDup l
                /\ forall w, w ∈ l <-> w ∈ remembered_words s')
  /\ (write env = WriteOk -> disk s' = Holds (JObject (progress_data s'))).
Proof.
  intros Hc s'. subst s'. rewrite (run_spaces envs env c s Hc). split_and!.
  - reflexivity.
  - intros Hin. cbn. by apply subseteq_union_1_L, singleton_subseteq_l.
  - exists (elements ({[word c]} ∪ remembered_words s)). split_and!.
    + cbn. by rewrite lookup_insert_eq.
    + apply NoDup_elements.
    + intros w. cbn. apply elem_of_elements.
  - intros Hw. cbn. by rewrite Hw.
Qed.

Lemma marking_idempotent_witness :
  let s' := run (spaces ([Sample.quiet] ++ [Sample.quiet])) Sample.started in
  remembered_words s' = {[word Sample.cat]} ∪ remembered_words Sample.started
  /\ (word Sample.cat ∈ remembered_words Sample.started ->
      remembered_words s' = remembered_words Sample.started)
  /\ (exists l, progress_data s' !! current_list s' = Some l
                /\ NoDup l
                /\ forall w, w ∈ l <-> w ∈ remembered_words s')
  /\ (write Sample.quiet = WriteOk -> disk s' = Holds (JObject (progress_data s'))).
Proof.
  apply (marking_idempotent Sample.started Sample.cat [Sample.quiet] Sample.quiet).
  vm_compute. reflexivity.
Defined.

(** ** Rounds (P3) *)

Section Filter.
Context {A : Type} (P : A -> Prop) `{!forall x, Decision (P x)}.

Lemma filter_cons_split l c q :
  filter P l = c :: q ->
  exists skipped rest,
    l = skipped ++ c :: rest /\ filter P skipped = [] /\ P c /\ filter P rest = q.
Proof.
  induction l as [|x l IH]; [done|]. rewrite filter_cons.
  destruct (decide (P x)) as [Hx|Hx].
  - intros [= -> <-]. by exists [], l.
  - intros Hf. destruct (IH Hf) as (sk & rest & -> & Hsk & Hc & Hrest).
    exists (x :: sk), rest. split_and!; try done.
    by rewrite filter_cons_False.
Qed.

Lemma filter_all l : Forall P l -> filter P l = l.
Proof.
  induction 1 as [|x l Hx _ IH]; [done|].
  by rewrite filter_cons_True, IH.
Qed.
End Filter.

Lemma unremembered_mono (r r' : gset pystr) e :
  r ⊆ r' -> unremembered r' e -> unremembered r e.
Proof. unfold unremembered. intros Hsub Hn Hin. by apply Hn, Hsub. Qed.

Lemma filter_unremembered_mono (r r' : gset pystr) (l : list WordEntry) :
  r ⊆ r' ->
  filter (unremembered r') (filter (unremembered r) l) = filter (unremembered r') l.
Proof. intros Hsub. apply list_filter_filter_l. intros e. by apply unremembered_mono. Qed.

Lemma filter_unremembered_sublist (r r' : gset pystr) (l : list WordEntry) :
  r ⊆ r' ->
  filter (unremembered r') l `sublist_of` filter (unremembered r) l.
Proof.
  intros Hsub. rewrite <- (filter_unremembered_mono r r' l Hsub).
  apply sublist_filter.
Qed.

(** Where a round stands: the order [p] splits into the part [pre] that
    has been gone through and the part [post] still ahead; what has been
    shown was taken from [pre] in order, every entry of [pre] that is not
    remembered has been shown, and the queue holds the entries of [post]
    that are not remembered. *)
Lemma in_round_split p s0 s shown :
  option_list (current s0) ++ round_list s0 = p ->
  in_round s0 s shown ->
  exists pre post,
    p = pre ++ post
    /\ shown `sublist_of` pre
    /\ filter (unremembered (remembered_words s)) pre `sublist_of` shown
    /\ queue s = filter (unremembered (remembered_words s)) post.
Proof.
  intros Hp Hround.
  induction Hround as [|s shown ev env _ IH Hclr Hadv|s shown ev env _ IH Hadv Hq].
  - exists (option_list (current s0)), (round_list s0). split_and!; try done.
    apply sublist_filter.
  - destruct IH as (pre & post & -> & Hshown & Hfilter & Hqueue).
    exists pre, post. split; [done|]. split; [done|].
    destruct (handle_within ev env s Hclr)
      as [[Hadv' _]|[_ [->|[[_ ->]|(c & Hcur & ->)]]]]; [congruence|done|done|].
    assert (Hsub : remembered_words s ⊆ remembered_words (marked (write env) c s))
      by (cbn; apply union_subseteq_r).
    split.
    + etrans; [|exact Hfilter]. by apply filter_unremembered_sublist.
    + unfold queue in *. change (round_list (marked (write env) c s)) with (round_list s).
      rewrite <- (filter_unremembered_mono _ _ (round_list s) Hsub), Hqueue.
      by apply filter_unremembered_mono.
  - destruct IH as (pre & post & -> & Hshown & Hfilter & Hqueue).
    rewrite (advances_get_new_word _ _ _ Hadv).
    destruct (get_new_word_frame (reshuffle env) s) as (_ & _ & _ & _ & Hr & _).
    destruct (get_new_word_next (reshuffle env) s) as [Hcur Hrl].
    unfold queue at 1. rewrite Hr, Hcur, Hrl. unfold next_round.
    destruct (queue s) as [|c q] eqn:Hqs; [done|]. cbn [head tail option_list].
    symmetry in Hqueue.
    destruct (filter_cons_split _ _ _ _ Hqueue)
      as (skipped & rest & -> & Hsk & Hc & Hrest).
    exists (pre ++ skipped ++ [c]), rest. split_and!.
    + by rewrite <- !app_assoc.
    + apply sublist_app; [done|]. by apply sublist_inserts_l.
    + rewrite !filter_app, Hsk, filter_cons_True, filter_nil by done.
      by apply sublist_app.
    + rewrite Hrest.
      assert (Hqq : filter (unremembered (remembered_words s)) q = q).
      { rewrite <- Hrest. by apply list_filter_filter_l. }
      exact Hqq.
Qed.

(** [get_new_word] on an exhausted queue opens a round. *)
Lemma get_new_word_opens (sh : Shuffler) s :
  queue s = [] -> round_opened (sh (pending s)) (get_new_word sh s).
Proof.
  intros Hq. split.
  - unfold pending.
    destruct (get_new_word_frame sh s) as (_ & _ & _ & -> & -> & _).
    apply (permute_perm sh).
  - rewrite get_new_word_shown. unfold next_round. by rewrite Hq.
Qed.

(** C2: in a round opened on the order [p] (a permutation of the entries
    not remembered, whichever the shuffle produced), followed through any
    key presses up to the state where the queue has nothing left to show,
    the entries [current] was set to are taken from [p] in order, each
    position at most once, and every entry of [p] that is not remembered
    is among them; if nothing was marked during the round they are
    exactly [p], each not-remembered entry once. *)
Theorem round_completeness (p : list WordEntry) (s0 s : State)
    (shown : list WordEntry) :
  round_opened p s0 ->
  in_round s0 s shown ->
  queue s = [] ->
  shown `sublist_of` p
  /\ filter (unremembered (remembered_words s)) p `sublist_of` shown
  /\ (remembered_words s = remembered_words s0 ->
      shown = p /\ shown ≡ₚ pending s0).
Proof.
  intros [Hperm Hp] Hround Hend.
  destruct (in_round_split p s0 s shown Hp Hround)
    as (pre & post & -> & Hshown & Hfilter & Hqueue).
  rewrite Hend in Hqueue.
  assert (Hall : filter (unremembered (remembered_words s)) (pre ++ post)
                 `sublist_of` shown).
  { by rewrite filter_app, <- Hqueue, app_nil_r. }
  assert (Hsub : shown `sublist_of` pre ++ post) by by apply sublist_inserts_r.
  split_and!; [done|done|].
  intros Hr. rewrite Hr in Hall.
  assert (Heq : shown = pre ++ post).
  { apply (anti_symm sublist); [done|].
    rewrite filter_all in Hall; [done|].
    apply Forall_forall. intros e He. rewrite Hperm in He.
    apply list_elem_of_filter in He. apply He. }
  split; [done|]. by rewrite Heq.
Qed.

Lemma round_completeness_witness :
  let s := run [Sample.press key_return; Sample.press key_return] Sample.started in
  let shown := [Sample.cat; Sample.dog] in
  shown `sublist_of` [Sample.cat; Sample.dog]
  /\ filter (unremembered (remembered_words s)) [Sample.cat; Sample.dog]
     `sublist_of` shown
  /\ (remembered_words s = remembered_words Sample.started ->
      shown = [Sample.cat; Sample.dog] /\ shown ≡ₚ pending Sample.started).
Proof.
  apply (round_completeness [Sample.cat; Sample.dog] Sample.started).
  - split; [vm_compute; reflexivity|reflexivity].
  - apply (round_next Sample.started
             (state_of (handle (Key key_return) Sample.quiet Sample.started))
             [Sample.cat] (Key key_return) Sample.quiet).
    + apply (round_other Sample.started Sample.started
               [Sample.cat] (Key key_return) Sample.quiet).
      * apply round_first.
      * reflexivity.
      * vm_compute. reflexivity.
    + vm_compute. reflexivity.
    + vm_compute. discriminate.
  - vm_compute. reflexivity.
Defined.

(** ** The skip key (P6) *)

Lemma submseteq_NoDup {A} (l k : list A) : l ⊆+ k -> NoDup k -> NoDup l.
Proof.
  intros Hsub Hk. destruct (submseteq_Permutation _ _ Hsub) as [k' Hperm].
  rewrite Hperm in Hk. by apply NoDup_app in Hk as [? _].
Qed.

Lemma queue_head_other_word s W W' :
  engine_inv s -> NoDup (word <$> words s) ->
  current s = Some W -> head (queue s) = Some W' -> word W' <> word W.
Proof.
  intros [Hsub _] Hnd Hcur Hhead Heq. rewrite Hcur in Hsub. cbn in Hsub.
  assert (Hnd' : NoDup (word <$> W :: round_list s)).
  { apply (submseteq_NoDup _ (word <$> words s)); [|done]. by rewrite Hsub. }
  rewrite fmap_cons in Hnd'. apply NoDup_cons in Hnd' as [Hnotin _].
  apply Hnotin. rewrite <- Heq. apply list_elem_of_fmap_2.
  apply head_Some_elem_of in Hhead. apply list_elem_of_filter in Hhead. apply Hhead.
Qed.

(** C5 (as amended): the skip key on a revealed definition calls
    [get_new_word]; it leaves the remembered set, the store and the file
    as they are.  The word then displayed differs from the word [W] that
    was skipped whenever the queue still holds an entry that is not
    remembered (the words of the list being distinct), and whenever [W]
    itself has been marked remembered.  When the queue is exhausted the
    next word is the head of a fresh shuffle of all entries not
    remembered, [W] among them. *)
Theorem skip_keeps_progress (s : State) (event : KeyEvent) (env : Env)
    (W : WordEntry) :
  reachable s ->
  command_of event = CmdSkip ->
  current s = Some W ->
  revealed s = true ->
  let s' := get_new_word (reshuffle env) s in
  on_key_press event env s = Returns tt s'
  /\ remembered_words s' = remembered_words s
  /\ progress_data s' = progress_data s
  /\ disk s' = disk s
  /\ (queue s <> [] -> NoDup (word <$> words s) ->
      exists W', current s' = Some W' /\ word W' <> word W)
  /\ (word W ∈ remembered_words s ->
      forall W', current s' = Some W' -> word W' <> word W)
  /\ (queue s = [] -> current s' = head (reshuffle env (pending s))).
Proof.
  intros Hreach Hk Hcur Hrev s'. subst s'.
  pose proof (engine_inv_reachable s Hreach) as Hinv.
  destruct (get_new_word_frame (reshuffle env) s) as (Hd & Hp & _ & _ & Hr & _).
  destruct (get_new_word_next (reshuffle env) s) as [Hnext _].
  split_and!; try done.
  - by rewrite on_key_press_eq, Hk, Hcur, Hrev.
  - intros Hq Hnd. rewrite Hnext. unfold next_round.
    destruct (queue s) as [|W' q] eqn:Hqs; [done|]. exists W'. split; [done|].
    apply (queue_head_other_word s W W' Hinv Hnd Hcur). by rewrite Hqs.
  - intros HW W' Hc' Heq.
    apply get_new_word_unremembered in Hc'. apply Hc'. by rewrite Heq.
  - intros Hq. rewrite Hnext. unfold next_round. by rewrite Hq.
Qed.

Lemma skip_keeps_progress_witness :
  let s := run [Sample.press key_return] Sample.started in
  let s' := get_new_word (reshuffle Sample.quiet) s in
  on_key_press key_n Sample.quiet s = Returns tt s'
  /\ remembered_words s' = remembered_words s
  /\ progress_data s' = progress_data s
  /\ disk s' = disk s
  /\ (queue s <> [] -> NoDup (word <$> words s) ->
      exists W', current s' = Some W' /\ word W' <> word Sample.cat)
  /\ (word Sample.cat ∈ remembered_words s ->
      forall W', current s' = Some W' -> word W' <> word Sample.cat)
  /\ (queue s = [] -> current s' = head (reshuffle Sample.quiet (pending s))).
Proof.
  apply (skip_keeps_progress (run [Sample.press key_return] Sample.started)
           key_n Sample.quiet Sample.cat).
  - apply (sample_reachable [Sample.press key_return]).
  - reflexivity.
  - vm_compute. reflexivity.
  - vm_compute. reflexivity.
Defined.

(** C5, as stated, fails at the end of a round: [cat] and [dog] are both
    pending, [dog] is displayed and revealed, the queue is empty; the skip
    key shuffles a new round, and when that round starts with [dog] the
    same word is displayed again. *)
Lemma skip_repeats_at_round_end :
  reachable Sample.round_over
  /\ ~ skip_changes_word Sample.round_over
         (Sample.env Sample.backwards true WriteOk).
Proof.
  split; [apply sample_reachable|].
  intros H.
  destruct (H Sample.dog) as (_ & _ & _ & Hnext);
    [vm_compute; reflexivity|vm_compute; reflexivity|].
  destruct Hnext as (W' & Hc & Hne).
  - exists Sample.cat, Sample.dog. split_and!.
    + apply (bool_decide_unpack _). vm_compute. exact I.
    + apply (bool_decide_unpack _). vm_compute. exact I.
    + vm_compute. discriminate.
  - vm_compute in Hc. injection Hc as <-. by apply Hne.
Qed.

(** ** The store the program saves (P5) *)

(** Every shuffle order is possible. *)
Lemma shuffler_complete (l p : list WordEntry) :
  p ≡ₚ l -> exists sh : Shuffler, sh l = p.
Proof.
  intros Hp.
  assert (Hperm : forall l', (if decide (l' = l) then p else l') ≡ₚ l').
  { intros l'. destruct (decide (l' = l)) as [->|]; done. }
  exists (mkShuffler (fun l' => if decide (l' = l) then p else l') Hperm).
  cbn. by rewrite decide_True.
Qed.

Lemma ensure_list_lookup l d : is_Some (ensure_list l d !! l).
Proof.
  unfold ensure_list. destruct (d !! l) eqn:Hl; [by rewrite Hl|].
  by rewrite lookup_insert_eq.
Qed.

Lemma ensure_list_keeps l l' d : is_Some (d !! l') -> is_Some (ensure_list l d !! l').
Proof.
  unfold ensure_list. destruct (d !! l) eqn:Hl; [done|].
  intros H. destruct (decide (l = l')) as [->|Hne].
  - by rewrite lookup_insert_eq.
  - by rewrite lookup_insert_ne.
Qed.

Lemma insert_keeps (l l' : pystr) (v : list pystr) (d : gmap pystr (list pystr)) :
  is_Some (d !! l') -> is_Some (<[l := v]> d !! l').
Proof.
  intros H. destruct (decide (l = l')) as [->|Hne].
  - by rewrite lookup_insert_eq.
  - by rewrite lookup_insert_ne.
Qed.

Lemma has_entries_handle ev env s :
  has_entries s -> has_entries (state_of (handle ev env s)).
Proof.
  intros [Hcur Hone].
  destruct (get_new_word_frame (reshuffle env) s) as (_ & Hp & Hl & _).
  destruct (clears ev env) eqn:Hc.
  - destruct (handle_clears ev env s Hc) as [->|[->|[nv ->]]].
    + unfold after_reset_current, has_entries.
      match goal with |- context [get_new_word ?sh ?x] =>
        destruct (get_new_word_frame sh x) as (_ & Hp' & Hl' & _) end.
      cbn in Hp', Hl' |- *. rewrite Hp', Hl'. split; by apply insert_keeps.
    + unfold after_reset_all, has_entries.
      match goal with |- context [get_new_word ?sh ?x] =>
        destruct (get_new_word_frame sh x) as (_ & Hp' & Hl' & _) end.
      cbn in Hp', Hl' |- *. rewrite Hp', Hl', !lookup_fmap.
      split; by apply fmap_is_Some.
    + unfold after_list_change, has_entries.
      match goal with |- context [get_new_word ?sh ?x] =>
        destruct (get_new_word_frame sh x) as (_ & Hp' & Hl' & _) end.
      cbn in Hp', Hl' |- *. rewrite Hp', Hl'.
      split; [apply ensure_list_lookup|by apply ensure_list_keeps].
  - destruct (handle_within ev env s Hc)
      as [[_ ->]|[_ [->|[[_ ->]|(c & _ & ->)]]]]; unfold has_entries.
    + by rewrite Hp, Hl.
    + done.
    + done.
    + cbn. split; by apply insert_keeps.
Qed.

Lemma has_entries_reachable s : reachable s -> has_entries s.
Proof.
  rewrite reachable_run. intros (f & env0 & evs & ->).
  assert (H0 : has_entries (after_main env0 (module_globals f))).
  { unfold after_main, has_entries.
    match goal with |- context [get_new_word ?sh ?x] =>
      destruct (get_new_word_frame sh x) as (_ & Hp' & Hl' & _) end.
    cbn in Hp', Hl' |- *. rewrite Hp', Hl'. split; apply ensure_list_lookup. }
  revert H0. generalize (after_main env0 (module_globals f)).
  induction evs as [|[ev env] evs IH]; intros s Hs; [exact Hs|].
  rewrite run_cons. by apply IH, has_entries_handle.
Qed.

(** C7 (as amended): when the write succeeds, [load_progress] after
    [save_progress] returns the store that was saved, with an empty entry
    added for [current_list] when the store had none; it is the saved
    store whenever that store has an entry for [current_list], as has
    every store the program itself saves. *)
Theorem save_load_roundtrip (s : State) :
  (let d := ensure_list (current_list s) (progress_data s) in
   (save_progress WriteOk ;; load_progress) s
     = Returns d (set_progress_data d
                    (set_disk (Holds (JObject (progress_data s))) s)))
  /\ (is_Some (progress_data s !! current_list s) ->
      ensure_list (current_list s) (progress_data s) = progress_data s)
  /\ (reachable s -> roundtrip_exact s).
Proof.
  assert (Hsome : is_Some (progress_data s !! current_list s) ->
                  ensure_list (current_list s) (progress_data s) = progress_data s).
  { intros [l Hl]. unfold ensure_list. by rewrite Hl. }
  split_and!.
  - apply save_then_load.
  - exact Hsome.
  - intros Hs. apply has_entries_reachable in Hs as [Hcur _].
    eexists. rewrite save_then_load. cbv zeta. by rewrite (Hsome Hcur).
Qed.

Lemma save_load_roundtrip_witness :
  let s := set_progress_data {[ py "list1" := [[29483%N]] ]} (module_globals NoFile) in
  is_Some (progress_data s !! current_list s)
  /\ ensure_list (current_list s) (progress_data s) = progress_data s.
Proof.
  intros s.
  assert (H : is_Some (progress_data s !! current_list s)).
  { exists [[29483%N]]. vm_compute. reflexivity. }
  split; [exact H|]. exact (proj1 (proj2 (save_load_roundtrip s)) H).
Defined.

(** C7, as stated, fails on the store with no entry at all: what comes
    back has an entry for ["list1"]. *)
Lemma roundtrip_adds_current_list : ~ roundtrip_exact (module_globals NoFile).
Proof.
  intros [s' H].
  rewrite save_then_load in H.
  apply (f_equal (fun r => match r with
                           | Returns d _ => d !! py "list1"
                           | Raises _ _ => None
                           end)) in H.
  vm_compute in H. discriminate.
Qed.

(* ===================================================================== *)
(** * Further properties of the engine *)
(* ===================================================================== *)

(** ** [get_new_word] *)

Lemma next_round_nonempty (sh : Shuffler) s :
  pending s <> [] -> next_round sh s <> [].
Proof.
  intros Hp. unfold next_round. destruct (queue s) eqn:Hq; [|done].
  intros Hnil. apply Hp, Permutation_nil_r. by rewrite <- (permute_perm sh), Hnil.
Qed.

(** X1: from a state the program reaches, [get_new_word] displays an entry
    of the list that is not remembered whenever there is one. *)
Theorem get_new_word_finds_pending (sh : Shuffler) (s : State) :
  reachable s ->
  pending s <> [] ->
  exists c, current (get_new_word sh s) = Some c
            /\ c ∈ words s /\ word c ∉ remembered_words s.
Proof.
  intros Hreach Hp.
  pose proof (engine_inv_queue s (engine_inv_reachable s Hreach)) as Hq.
  destruct (get_new_word_next sh s) as [Hcur _].
  destruct (next_round sh s) as [|c q] eqn:Hn;
    [by destruct (next_round_nonempty sh s Hp)|].
  exists c. split; [by rewrite Hcur|].
  assert (Hin : c ∈ next_round sh s) by (rewrite Hn; left). split.
  - apply (elem_of_submseteq (next_round sh s)); [done|].
    by apply next_round_submseteq.
  - by apply (next_round_unremembered sh).
Qed.

Lemma get_new_word_finds_pending_witness :
  exists c, current (get_new_word Sample.backwards Sample.round_over) = Some c
            /\ c ∈ words Sample.round_over
            /\ word c ∉ remembered_words Sample.round_over.
Proof.
  apply (get_new_word_finds_pending Sample.backwards Sample.round_over).
  - apply sample_reachable.
  - vm_compute. discriminate.
Defined.

(** X2: after [get_new_word] no entry of the queue is remembered.  While
    the old queue still had an entry that is not remembered, the first
    such entry is displayed, the rest of them is the new queue, and the
    queue has become shorter; otherwise the displayed entry and the new
    queue together are a permutation of the entries not remembered. *)
Theorem get_new_word_queue (sh : Shuffler) (s : State) :
  Forall (unremembered (remembered_words s)) (round_list (get_new_word sh s))
  /\ match queue s with
     | c :: q =>
         current (get_new_word sh s) = Some c
         /\ round_list (get_new_word sh s) = q
         /\ length (round_list (get_new_word sh s)) < length (round_list s)
     | [] =>
         option_list (current (get_new_word sh s))
           ++ round_list (get_new_word sh s) ≡ₚ pending s
     end.
Proof.
  split.
  - apply Forall_forall. intros e He. apply (next_round_unremembered sh).
    rewrite <- get_new_word_shown. apply elem_of_app. by right.
  - pose proof (get_new_word_shown sh s) as Hshown.
    destruct (get_new_word_next sh s) as [Hcur Hrl].
    unfold next_round in *. destruct (queue s) as [|c q] eqn:Hq.
    + rewrite Hshown. apply (permute_perm sh).
    + rewrite Hcur, Hrl. split_and!; [done|done|]. cbn.
      pose proof (length_filter (unremembered (remembered_words s)) (round_list s)) as Hlen.
      unfold queue in Hq. rewrite Hq in Hlen. cbn in Hlen. lia.
Qed.

(** ** What the keys leave alone *)

Lemma handle_within_keys ev env s :
  clears ev env = false -> is_mark ev = false ->
  state_of (handle ev env s) = get_new_word (reshuffle env) s
  \/ state_of (handle ev env s) = s
  \/ (is_Some (current s) /\ state_of (handle ev env s) = set_revealed true s).
Proof.
  destruct ev as [event| | |new_value]; cbn [handle clears is_mark].
  - rewrite on_key_press_eq.
    destruct (command_of event); intros Hc Hm; try discriminate;
      rewrite ?reset_current_eq, ?reset_all_eq, ?Hc; auto;
      destruct (current s) as [c|] eqn:Hcur; auto;
      destruct (revealed s); auto.
  - rewrite reset_current_eq. intros -> _. auto.
  - rewrite reset_all_eq. intros -> _. auto.
  - discriminate.
Qed.

(** X3: apart from the space key, a confirmed reset and a list switch, no
    event changes the remembered set, the store or the file; and apart
    from a list switch no event changes the list of words or the name of
    the current list. *)
Theorem keys_leave_progress (ev : Event) (env : Env) (s : State) :
  clears ev env = false ->
  let s' := state_of (handle ev env s) in
  words s' = words s
  /\ current_list s' = current_list s
  /\ (is_mark ev = false ->
      remembered_words s' = remembered_words s
      /\ progress_data s' = progress_data s
      /\ disk s' = disk s).
Proof.
  intros Hc s'. subst s'.
  destruct (get_new_word_frame (reshuffle env) s) as (Hd & Hp & Hl & Hw & Hr & _).
  split_and!.
  - destruct (handle_within ev env s Hc)
      as [[_ ->]|[_ [->|[[_ ->]|(c & _ & ->)]]]]; done.
  - destruct (handle_within ev env s Hc)
      as [[_ ->]|[_ [->|[[_ ->]|(c & _ & ->)]]]]; done.
  - intros Hm.
    destruct (handle_within_keys ev env s Hc Hm) as [->|[->|[_ ->]]]; done.
Qed.

Lemma keys_leave_progress_witness :
  let s' := state_of (handle (Key key_n) Sample.quiet Sample.round_over) in
  words s' = words Sample.round_over
  /\ current_list s' = current_list Sample.round_over
  /\ (is_mark (Key key_n) = false ->
      remembered_words s' = remembered_words Sample.round_over
      /\ progress_data s' = progress_data Sample.round_over
      /\ disk s' = disk Sample.round_over).
Proof.
  apply (keys_leave_progress (Key key_n) Sample.quiet Sample.round_over).
  reflexivity.
Defined.

(** X4: when nothing is displayed, no key and no declined reset changes
    anything: the state stays as it is until a reset is confirmed or a
    list is selected. *)
Theorem nothing_displayed_stays (evs : list (Event * Env)) (s : State) :
  current s = None ->
  Forall (fun p => clears p.1 p.2 = false) evs ->
  mainloop evs s = Returns tt s.
Proof.
  intros Hcur Hevs. induction Hevs as [|[ev env] evs Hc _ IH]; [done|].
  cbn [mainloop]. unfold bind. rewrite handle_returns.
  assert (Hs : state_of (handle ev env s) = s).
  { destruct (handle_within ev env s Hc)
      as [[Hadv _]|[_ [->|[[[c Hsome] _]|(c & Hsome & _)]]]]; try congruence.
    destruct ev as [event| | |nv]; cbn in Hadv; try discriminate.
    rewrite Hcur in Hadv.
    destruct (command_of event); cbn in Hadv; discriminate. }
  rewrite Hs. exact IH.
Qed.

Lemma nothing_displayed_stays_witness :
  mainloop [(Key key_return, Sample.quiet); (Key key_space, Sample.quiet);
            (Key key_n, Sample.quiet)]
           (module_globals NoFile)
  = Returns tt (module_globals NoFile).
Proof.
  apply nothing_displayed_stays.
  - reflexivity.
  - repeat constructor.
Defined.

(** ** The definition on display *)

Lemma revealed_handle ev env s :
  (revealed s = true -> is_Some (current s)) ->
  revealed (state_of (handle ev env s)) = true ->
  is_Some (current (state_of (handle ev env s))).
Proof.
  intros Hinv.
  assert (Hg : forall sh x, revealed (get_new_word sh x) = true ->
                            is_Some (current (get_new_word sh x))).
  { intros sh x Hr.
    destruct (get_new_word_frame sh x) as (_ & _ & _ & _ & _ & Hf). congruence. }
  destruct (clears ev env) eqn:Hc.
  - destruct (handle_clears ev env s Hc) as [->|[->|[nv ->]]]; apply Hg.
  - destruct (handle_within ev env s Hc)
      as [[_ ->]|[_ [->|[[Hsome ->]|(c & Hcur & ->)]]]].
    + apply Hg.
    + exact Hinv.
    + by intros _.
    + exact Hinv.
Qed.

(** X5: in every state the program reaches, a definition is revealed only
    while a word is displayed. *)
Theorem revealed_only_with_word (s : State) :
  reachable s -> revealed s = true -> is_Some (current s).
Proof.
  rewrite reachable_run. intros (f & env0 & evs & ->).
  assert (H0 : revealed (after_main env0 (module_globals f)) = true ->
               is_Some (current (after_main env0 (module_globals f)))).
  { unfold after_main. intros Hr.
    match type of Hr with revealed (get_new_word ?sh ?x) = _ =>
      destruct (get_new_word_frame sh x) as (_ & _ & _ & _ & _ & Hf) end.
    congruence. }
  revert H0. generalize (after_main env0 (module_globals f)).
  induction evs as [|[ev env] evs IH]; intros s Hs; [exact Hs|].
  rewrite run_cons. apply IH. by apply revealed_handle.
Qed.

Lemma revealed_only_with_word_witness :
  revealed Sample.round_over = true /\ is_Some (current Sample.round_over).
Proof.
  assert (Hr : revealed Sample.round_over = true) by (vm_compute; reflexivity).
  split; [exact Hr|].
  exact (revealed_only_with_word Sample.round_over (sample_reachable _) Hr).
Defined.

(** X6: whatever the event, if it changes the displayed entry then it
    leaves the definition hidden. *)
Theorem new_word_hides_definition (ev : Event) (env : Env) (s : State) :
  current (state_of (handle ev env s)) <> current s ->
  revealed (state_of (handle ev env s)) = false.
Proof.
  intros Hne.
  destruct (clears ev env) eqn:Hc.
  - destruct (handle_clears ev env s Hc) as [->|[->|[nv ->]]];
      apply get_new_word_frame.
  - destruct (handle_within ev env s Hc)
      as [[_ Hs]|[_ [Hs|[[_ Hs]|(c & _ & Hs)]]]]; rewrite Hs in Hne |- *.
    + apply get_new_word_frame.
    + done.
    + done.
    + done.
Qed.

Lemma new_word_hides_definition_witness :
  current (state_of (handle (Key key_n) Sample.quiet
                       (run [Sample.press key_return] Sample.started)))
    <> current (run [Sample.press key_return] Sample.started)
  /\ revealed (state_of (handle (Key key_n) Sample.quiet
                           (run [Sample.press key_return] Sample.started)))
     = false.
Proof.
  assert (Hne : current (state_of (handle (Key key_n) Sample.quiet
                                     (run [Sample.press key_return] Sample.started)))
                <> current (run [Sample.press key_return] Sample.started)).
  { vm_compute. discriminate. }
  split; [exact Hne|].
  exact (new_word_hides_definition _ _ _ Hne).
Defined.

(** ** Resets, list switch and start-up *)

(** Reading a global of a state written with the setters. *)
Ltac fields :=
  cbn [disk progress_data current_list words remembered_words current
       round_list revealed set_disk set_progress_data set_current_list
       set_words set_remembered_words set_current set_round_list
       set_revealed module_globals].


Lemma filter_unremembered_empty (l : list WordEntry) :
  filter (unremembered ∅) l = l.
Proof.
  apply filter_all, Forall_forall. intros e _. unfold unremembered. set_solver.
Qed.

(** [get_new_word] after the callback has put a shuffle of the pending
    entries in the queue: it displays the head of that shuffle. *)
Lemma get_new_word_on_shuffled (sh sh' : Shuffler) x :
  round_list x = sh (pending x) ->
  option_list (current (get_new_word sh' x)) ++ round_list (get_new_word sh' x)
    ≡ₚ pending x
  /\ (current (get_new_word sh' x) = None <-> pending x = []).
Proof.
  intros Hrl.
  assert (Hq : queue x = sh (pending x)).
  { unfold queue. rewrite Hrl. apply filter_all, Forall_forall.
    intros e He. rewrite (permute_perm sh) in He.
    apply list_elem_of_filter in He. apply He. }
  assert (Hn : next_round sh' x ≡ₚ pending x).
  { unfold next_round. rewrite Hq.
    destruct (sh (pending x)) eqn:Hs; [apply (permute_perm sh')|].
    rewrite <- Hs. apply (permute_perm sh). }
  split.
  - by rewrite get_new_word_shown.
  - destruct (get_new_word_next sh' x) as [-> _]. split.
    + intros Hh. apply Permutation_nil_r. rewrite <- Hn.
      by destruct (next_round sh' x).
    + intros Hp. rewrite Hp in Hn. apply Permutation_nil_r in Hn. by rewrite Hn.
Qed.

(** X7: [reset_current], once confirmed, returns with an empty remembered
    set and an empty entry for the current list, every other entry, the
    words and the list name as before, the file holding the store when
    the write succeeds; the definition is hidden and the displayed entry
    together with the queue is a permutation of all the words, so a word
    is displayed unless the list is empty.  Declined, it changes
    nothing. *)
Theorem reset_current_effect (env : Env) (s : State) :
  (askyesno env = false -> reset_current env s = Returns tt s)
  /\ (askyesno env = true ->
      exists s',
        reset_current env s = Returns tt s'
        /\ remembered_words s' = ∅
        /\ progress_data s' = <[current_list s := []]> (progress_data s)
        /\ words s' = words s
        /\ current_list s' = current_list s
        /\ (write env = WriteOk -> disk s' = Holds (JObject (progress_data s')))
        /\ revealed s' = false
        /\ option_list (current s') ++ round_list s' ≡ₚ words s
        /\ (current s' = None <-> words s = [])).
Proof.
  rewrite reset_current_eq. split; intros ->; [done|].
  exists (after_reset_current env s). split; [done|].
  unfold after_reset_current.
  match goal with |- context [get_new_word ?sh ?x] =>
    destruct (get_new_word_frame sh x) as (Hd & Hp & Hl & Hw & Hr & Hrev);
    destruct (get_new_word_on_shuffled (shuffle env) sh x) as [Hperm Hnone];
      [cbn; unfold pending; cbn; by rewrite filter_unremembered_empty|];
    set (s' := get_new_word sh x) in *; clearbody s'
  end.
  unfold pending in Hperm, Hnone. cbn in Hd, Hp, Hl, Hw, Hr, Hperm, Hnone.
  rewrite filter_unremembered_empty in Hperm, Hnone.
  split_and!; try done.
  intros Hok. rewrite Hd, Hp, Hok. reflexivity.
Qed.

Lemma reset_current_effect_witness :
  exists s',
    reset_current Sample.quiet Sample.cat_marked = Returns tt s'
    /\ remembered_words s' = ∅
    /\ progress_data s'
       = <[current_list Sample.cat_marked := []]> (progress_data Sample.cat_marked)
    /\ words s' = words Sample.cat_marked
    /\ current_list s' = current_list Sample.cat_marked
    /\ (write Sample.quiet = WriteOk -> disk s' = Holds (JObject (progress_data s')))
    /\ revealed s' = false
    /\ option_list (current s') ++ round_list s' ≡ₚ words Sample.cat_marked
    /\ (current s' = None <-> words Sample.cat_marked = []).
Proof.
  exact (proj2 (reset_current_effect Sample.quiet Sample.cat_marked) eq_refl).
Defined.

(** X8: [reset_all], once confirmed, returns with an empty remembered set
    and every entry of the store emptied, no entry added or removed; the
    words and the list name are as before, the file holds the store when
    the write succeeds, and the displayed entry together with the queue
    is a permutation of all the words.  Declined, it changes nothing. *)
Theorem reset_all_effect (env : Env) (s : State) :
  (askyesno env = false -> reset_all env s = Returns tt s)
  /\ (askyesno env = true ->
      exists s',
        reset_all env s = Returns tt s'
        /\ remembered_words s' = ∅
        /\ (forall l, progress_data s' !! l = (fun _ => []) <$> progress_data s !! l)
        /\ dom (progress_data s') = dom (progress_data s)
        /\ words s' = words s
        /\ current_list s' = current_list s
        /\ (write env = WriteOk -> disk s' = Holds (JObject (progress_data s')))
        /\ revealed s' = false
        /\ option_list (current s') ++ round_list s' ≡ₚ words s
        /\ (current s' = None <-> words s = [])).
Proof.
  rewrite reset_all_eq. split; intros ->; [done|].
  exists (after_reset_all env s). split; [done|].
  unfold after_reset_all.
  match goal with |- context [get_new_word ?sh ?x] =>
    destruct (get_new_word_frame sh x) as (Hd & Hp & Hl & Hw & Hr & Hrev);
    destruct (get_new_word_on_shuffled (shuffle env) sh x) as [Hperm Hnone];
      [cbn; unfold pending; cbn; by rewrite filter_unremembered_empty|];
    set (s' := get_new_word sh x) in *; clearbody s'
  end.
  unfold pending in Hperm, Hnone. cbn in Hd, Hp, Hl, Hw, Hr, Hperm, Hnone.
  rewrite filter_unremembered_empty in Hperm, Hnone.
  split_and!; try done.
  - intros l. rewrite Hp. apply lookup_fmap.
  - rewrite Hp. apply dom_fmap_L.
  - intros Hok. rewrite Hd, Hp, Hok. reflexivity.
Qed.

Lemma reset_all_effect_witness :
  exists s',
    reset_all Sample.quiet Sample.cat_marked = Returns tt s'
    /\ remembered_words s' = ∅
    /\ (forall l, progress_data s' !! l
                  = (fun _ => []) <$> progress_data Sample.cat_marked !! l)
    /\ dom (progress_data s') = dom (progress_data Sample.cat_marked)
    /\ words s' = words Sample.cat_marked
    /\ current_list s' = current_list Sample.cat_marked
    /\ (write Sample.quiet = WriteOk -> disk s' = Holds (JObject (progress_data s')))
    /\ revealed s' = false
    /\ option_list (current s') ++ round_list s' ≡ₚ words Sample.cat_marked
    /\ (current s' = None <-> words Sample.cat_marked = []).
Proof.
  exact (proj2 (reset_all_effect Sample.quiet Sample.cat_marked) eq_refl).
Defined.

Lemma stored_ensure_list l l' d : stored l (ensure_list l' d) = stored l d.
Proof.
  unfold stored, ensure_list. destruct (d !! l') eqn:Hl'; [done|].
  destruct (decide (l' = l)) as [->|Hne].
  - by rewrite lookup_insert_eq, Hl'.
  - by rewrite lookup_insert_ne.
Qed.

(** X9: [on_list_change] returns with the new list name, the words of that
    list's CSV file, and the remembered set read from the store; the
    store gets at most an empty entry for the new list, and the file is
    not written.  The definition is hidden and the displayed entry
    together with the queue is a permutation of the entries not
    remembered, so a word is displayed unless all are remembered. *)
Theorem on_list_change_effect (new_value : pystr) (env : Env) (s : State) :
  exists s',
    on_list_change new_value env s = Returns tt s'
    /\ current_list s' = new_value
    /\ words s' = omap entry_of_row (rows_read (csv env (csv_path new_value)))
    /\ progress_data s' = ensure_list new_value (progress_data s)
    /\ (forall l, stored l (progress_data s') = stored l (progress_data s))
    /\ remembered_words s' = list_to_set (stored new_value (progress_data s))
    /\ disk s' = disk s
    /\ revealed s' = false
    /\ option_list (current s') ++ round_list s' ≡ₚ pending s'
    /\ (current s' = None <-> all_remembered s').
Proof.
  exists (after_list_change new_value env s).
  split; [apply on_list_change_eq|].
  unfold after_list_change.
  match goal with |- context [get_new_word ?sh ?x] =>
    destruct (get_new_word_frame sh x) as (Hd & Hp & Hl & Hw & Hr & Hrev);
    destruct (get_new_word_on_shuffled (shuffle env) sh x) as [Hperm Hnone];
      [reflexivity|];
    set (s' := get_new_word sh x) in *;
    assert (Hpend : pending s' = pending x) by (unfold pending; by rewrite Hw, Hr);
    clearbody s'
  end.
  cbn in Hd, Hp, Hl, Hw, Hr.
  split_and!; try done.
  - intros l. rewrite Hp. apply stored_ensure_list.
  - rewrite Hr. unfold stored.
    fold (stored new_value (ensure_list new_value (progress_data s))).
    by rewrite stored_ensure_list.
  - by rewrite Hpend.
  - rewrite Hnone, <- Hpend. split.
    + apply pending_nil_all_remembered.
    + apply all_remembered_pending_nil.
Qed.

(** ** The remembered set and the store *)

Lemma in_step_handle ev env s : in_step s -> in_step (state_of (handle ev env s)).
Proof.
  unfold in_step. intros Hs.
  assert (Hg : forall sh x,
             remembered_words x = list_to_set (stored (current_list x) (progress_data x)) ->
             remembered_words (get_new_word sh x)
             = list_to_set (stored (current_list (get_new_word sh x))
                                   (progress_data (get_new_word sh x)))).
  { intros sh x Hx.
    destruct (get_new_word_frame sh x) as (_ & -> & -> & _ & -> & _). exact Hx. }
  destruct (clears ev env) eqn:Hc.
  - destruct (handle_clears ev env s Hc) as [->|[->|[nv ->]]]; apply Hg; cbn.
    + unfold stored. by rewrite lookup_insert_eq.
    + unfold stored. rewrite lookup_fmap. by destruct (progress_data s !! _).
    + reflexivity.
  - destruct (handle_within ev env s Hc)
      as [[_ ->]|[_ [->|[[_ ->]|(c & _ & ->)]]]].
    + by apply Hg.
    + done.
    + done.
    + cbn. unfold stored. rewrite lookup_insert_eq. cbn.
      by rewrite list_to_set_elements_L.
Qed.

Lemma in_step_reachable s : reachable s -> in_step s.
Proof.
  rewrite reachable_run. intros (f & env0 & evs & ->).
  assert (H0 : in_step (after_main env0 (module_globals f))).
  { unfold in_step, after_main.
    match goal with |- context [get_new_word ?sh ?x] =>
      destruct (get_new_word_frame sh x) as (_ & -> & -> & _ & -> & _) end.
    cbn. by rewrite (left_id_L ∅ (∪)). }
  revert H0. generalize (after_main env0 (module_globals f)).
  induction evs as [|[ev env] evs IH]; intros s Hs; [exact Hs|].
  rewrite run_cons. by apply IH, in_step_handle.
Qed.

(** X10: in every state the program reaches, the remembered set is the set
    of the words stored for the current list. *)
Theorem remembered_is_stored (s : State) :
  reachable s ->
  remembered_words s = list_to_set (stored (current_list s) (progress_data s)).
Proof. apply in_step_reachable. Qed.

Lemma remembered_is_stored_witness :
  remembered_words Sample.cat_marked
  = list_to_set (stored (current_list Sample.cat_marked)
                        (progress_data Sample.cat_marked)).
Proof.
  exact (remembered_is_stored Sample.cat_marked
           (sample_reachable [Sample.press key_space])).
Defined.

Lemma after_list_change_fields new_value env s :
  current_list (after_list_change new_value env s) = new_value
  /\ progress_data (after_list_change new_value env s)
     = ensure_list new_value (progress_data s)
  /\ remembered_words (after_list_change new_value env s)
     = list_to_set (stored new_value (progress_data s)).
Proof.
  unfold after_list_change.
  match goal with |- context [get_new_word ?sh ?x] =>
    destruct (get_new_word_frame sh x) as (_ & -> & -> & _ & -> & _)
  end.
  cbn. split_and!; try done.
  fold (stored new_value (ensure_list new_value (progress_data s))).
  by rewrite stored_ensure_list.
Qed.

(** X11: selecting another list and then the first one again brings back
    the remembered set of the first list, whether or not anything was
    written to the file in between. *)
Theorem switch_back_keeps_remembered (s : State) (other : pystr) (env1 env2 : Env) :
  reachable s ->
  let s2 := run [(SelectList other, env1); (SelectList (current_list s), env2)] s in
  current_list s2 = current_list s
  /\ remembered_words s2 = remembered_words s.
Proof.
  intros Hs s2. subst s2. rewrite !run_cons. cbn [handle].
  rewrite !on_list_change_eq. cbn [state_of]. change (run [] ?x) with x.
  destruct (after_list_change_fields (current_list s) env2
              (after_list_change other env1 s)) as (-> & _ & ->).
  destruct (after_list_change_fields other env1 s) as (_ & -> & _).
  split; [done|].
  rewrite stored_ensure_list. symmetry. apply (in_step_reachable s Hs).
Qed.

Lemma switch_back_keeps_remembered_witness :
  let s2 := run [(SelectList (py "list2"), Sample.quiet);
                 (SelectList (current_list Sample.cat_marked), Sample.quiet)]
                Sample.cat_marked in
  current_list s2 = current_list Sample.cat_marked
  /\ remembered_words s2 = remembered_words Sample.cat_marked.
Proof.
  exact (switch_back_keeps_remembered Sample.cat_marked (py "list2")
           Sample.quiet Sample.quiet (sample_reachable [Sample.press key_space])).
Defined.

(** ** The file *)

Lemma after_main_fields env f :
  disk (after_main env (module_globals f)) = f
  /\ current_list (after_main env (module_globals f)) = py "list1"
  /\ progress_data (after_main env (module_globals f))
     = ensure_list (py "list1") (loaded_store f)
  /\ remembered_words (after_main env (module_globals f))
     = list_to_set (stored (py "list1") (loaded_store f))
  /\ words (after_main env (module_globals f))
     = omap entry_of_row (rows_read (csv env (csv_path (py "list1")))).
Proof.
  unfold after_main.
  match goal with |- context [get_new_word ?sh ?x] =>
    destruct (get_new_word_frame sh x) as (-> & -> & -> & -> & -> & _)
  end.
  fields. split_and!; try done.
  rewrite (left_id_L ∅ (∪)).
  fold (stored (py "list1") (ensure_list (py "list1") (loaded_store f))).
  by rewrite stored_ensure_list.
Qed.


Lemma disk_agrees_handle ev env s :
  write env = WriteOk -> disk_agrees s -> disk_agrees (state_of (handle ev env s)).
Proof.
  unfold disk_agrees. intros Hok Hs.
  assert (Hg : forall sh x,
             (forall l, stored l (loaded_store (disk x)) = stored l (progress_data x)) ->
             forall l, stored l (loaded_store (disk (get_new_word sh x)))
                       = stored l (progress_data (get_new_word sh x))).
  { intros sh x Hx l.
    destruct (get_new_word_frame sh x) as (-> & -> & _). apply Hx. }
  destruct (clears ev env) eqn:Hc.
  - destruct (handle_clears ev env s Hc) as [->|[->|[nv ->]]]; apply Hg; cbn.
    + by rewrite Hok.
    + by rewrite Hok.
    + intros l. rewrite stored_ensure_list. apply Hs.
  - destruct (handle_within ev env s Hc)
      as [[_ ->]|[_ [->|[[_ ->]|(c & _ & ->)]]]].
    + by apply Hg.
    + done.
    + done.
    + cbn. by rewrite Hok.
Qed.

Lemma disk_agrees_main env0 f : disk_agrees (after_main env0 (module_globals f)).
Proof.
  unfold disk_agrees, after_main. intros l.
  match goal with |- context [get_new_word ?sh ?x] =>
    destruct (get_new_word_frame sh x) as (-> & -> & _) end.
  cbn. by rewrite stored_ensure_list.
Qed.

Lemma disk_agrees_run evs s :
  Forall (fun p => write p.2 = WriteOk) evs ->
  disk_agrees s -> disk_agrees (run evs s).
Proof.
  intros Hevs. revert s.
  induction Hevs as [|[ev env] evs Hok _ IH]; intros s Hs; [exact Hs|].
  rewrite run_cons. by apply IH, disk_agrees_handle.
Qed.

(** X12: as long as the writes succeed, the progress file and the store in
    memory record the same words for every list (a list without an entry
    counting as one with an empty entry): nothing marked or reset is
    missing from the file. *)
Theorem progress_on_disk (f : progress_file) (env0 : Env)
    (evs : list (Event * Env)) :
  Forall (fun p => write p.2 = WriteOk) evs ->
  disk_agrees (run evs (state_of (main env0 (module_globals f)))).
Proof.
  intros Hevs. rewrite main_eq.
  apply (disk_agrees_run evs _ Hevs), disk_agrees_main.
Qed.

Lemma progress_on_disk_witness :
  disk_agrees (run [Sample.press key_space; Sample.press key_return]
                   (state_of (main Sample.quiet (module_globals NoFile)))).
Proof.
  apply (progress_on_disk NoFile Sample.quiet
           [Sample.press key_space; Sample.press key_return]).
  repeat constructor.
Defined.

(** X13: a new start of the program on the file a session leaves, the
    writes of that session having succeeded, finds the same words stored
    for every list, and its remembered set is what the session stored for
    ["list1"]; it is the remembered set of the session when that ended on
    ["list1"]. *)
Theorem restart_restores (f : progress_file) (env0 env1 : Env)
    (evs : list (Event * Env)) :
  Forall (fun p => write p.2 = WriteOk) evs ->
  let s := run evs (state_of (main env0 (module_globals f))) in
  let s' := state_of (main env1 (module_globals (disk s))) in
  (forall l, stored l (progress_data s') = stored l (progress_data s))
  /\ (forall w, w ∈ remembered_words s' <-> w ∈ stored (py "list1") (progress_data s))
  /\ (current_list s = py "list1" -> remembered_words s' = remembered_words s).
Proof.
  intros Hevs s s'.
  assert (Hreach : reachable s).
  { apply reachable_run. exists f, env0, evs. subst s. by rewrite main_eq. }
  assert (Hdisk : disk_agrees s).
  { subst s. rewrite main_eq. apply (disk_agrees_run evs _ Hevs), disk_agrees_main. }
  assert (Hp : progress_data s' = ensure_list (py "list1") (loaded_store (disk s))).
  { subst s'. rewrite main_eq. apply after_main_fields. }
  assert (Hr : remembered_words s'
               = list_to_set (stored (py "list1") (progress_data s))).
  { subst s'. rewrite main_eq. cbn [state_of].
    destruct (after_main_fields env1 (disk s)) as (_ & _ & _ & -> & _).
    by rewrite (Hdisk (py "list1")). }
  split_and!.
  - intros l. by rewrite Hp, stored_ensure_list, (Hdisk l).
  - intros w. rewrite Hr. apply elem_of_list_to_set.
  - intros Hl. rewrite Hr, (in_step_reachable s Hreach), Hl. reflexivity.
Qed.

Lemma restart_restores_witness :
  let s := run [Sample.press key_space]
               (state_of (main Sample.quiet (module_globals NoFile))) in
  let s' := state_of (main Sample.quiet (module_globals (disk s))) in
  (forall l, stored l (progress_data s') = stored l (progress_data s))
  /\ (forall w, w ∈ remembered_words s' <-> w ∈ stored (py "list1") (progress_data s))
  /\ (current_list s = py "list1" -> remembered_words s' = remembered_words s).
Proof.
  apply (restart_restores NoFile Sample.quiet Sample.quiet [Sample.press key_space]).
  repeat constructor.
Defined.

(** X14: when [main] returns, it has not written the file and is on the
    list ["list1"]: the words are those of its CSV file, the store is the
    mapping found in the progress file (none if the file is absent,
    unreadable or not a mapping) with an entry for ["list1"], the
    remembered set is what that entry holds, and the displayed entry
    together with the queue is a permutation of the entries not
    remembered. *)
Theorem main_start (env : Env) (f : progress_file) (s' : State) :
  main env (module_globals f) = Returns tt s' ->
  disk s' = f
  /\ current_list s' = py "list1"
  /\ words s' = omap entry_of_row (rows_read (csv env (csv_path (py "list1"))))
  /\ progress_data s' = ensure_list (py "list1") (loaded_store f)
  /\ remembered_words s' = list_to_set (stored (py "list1") (loaded_store f))
  /\ revealed s' = false
  /\ option_list (current s') ++ round_list s' ≡ₚ pending s'
  /\ (current s' = None <-> all_remembered s').
Proof.
  rewrite main_eq. intros [= <-].
  destruct (after_main_fields env f) as (Hd & Hl & Hp & Hr & Hw).
  split_and!; try done; unfold after_main;
    match goal with |- context [get_new_word ?sh ?x] =>
      destruct (get_new_word_frame sh x) as (_ & _ & _ & Hw' & Hr' & Hrev);
      destruct (get_new_word_on_shuffled (shuffle env) sh x) as [Hperm Hnone];
        [reflexivity|];
      set (s' := get_new_word sh x) in *;
      assert (Hpend : pending s' = pending x) by (unfold pending; by rewrite Hw', Hr');
      clearbody s'
    end.
  - by rewrite Hpend.
  - rewrite Hnone, <- Hpend. split.
    + apply pending_nil_all_remembered.
    + apply all_remembered_pending_nil.
Qed.

Lemma main_start_witness :
  main Sample.quiet (module_globals NoFile) = Returns tt Sample.started
  /\ disk Sample.started = NoFile
  /\ current_list Sample.started = py "list1"
  /\ words Sample.started
     = omap entry_of_row (rows_read (csv Sample.quiet (csv_path (py "list1"))))
  /\ progress_data Sample.started = ensure_list (py "list1") (loaded_store NoFile)
  /\ remembered_words Sample.started
     = list_to_set (stored (py "list1") (loaded_store NoFile))
  /\ revealed Sample.started = false
  /\ option_list (current Sample.started) ++ round_list Sample.started
     ≡ₚ pending Sample.started
  /\ (current Sample.started = None <-> all_remembered Sample.started).
Proof.
  assert (H : main Sample.quiet (module_globals NoFile) = Returns tt Sample.started).
  { unfold Sample.started. by rewrite main_eq. }
  split; [exact H|].
  exact (main_start Sample.quiet NoFile Sample.started H).
Defined.

(** ** The word source *)

Lemma entry_of_row_trimmed row e :
  entry_of_row row = Some e -> trimmed (word e) /\ trimmed (definition e).
Proof.
  unfold entry_of_row. destruct (row !! 0%nat) as [col0|]; [|done].
  intros [= <-]. cbn. split; [apply strip_trimmed|].
  destruct (row !! 1%nat); [apply strip_trimmed|]. by split.
Qed.

(** X15: [load_words] returns at most one entry per row read, and in every
    entry both the word and the definition are free of white space at
    either end. *)
Theorem load_words_trimmed {S} (fs : pystr -> csv_file) (filename : pystr) (s : S) :
  exists ws,
    load_words fs filename s = Returns ws s
    /\ length ws <= length (rows_read (fs filename))
    /\ Forall (fun e => trimmed (word e) /\ trimmed (definition e)) ws.
Proof.
  exists (omap entry_of_row (rows_read (fs filename))).
  split; [apply load_words_eq|]. split.
  - induction (rows_read (fs filename)) as [|row l IH]; cbn; [done|].
    destruct (entry_of_row row); cbn; lia.
  - apply Forall_forall. intros e He.
    apply list_elem_of_omap in He as (row & _ & Hrow).
    by apply (entry_of_row_trimmed row).
Qed.

(** ** The queue *)

Lemma get_new_word_queue_clean sh s :
  Forall (unremembered (remembered_words (get_new_word sh s)))
         (round_list (get_new_word sh s)).
Proof.
  destruct (get_new_word_frame sh s) as (_ & _ & _ & _ & -> & _).
  apply Forall_forall. intros e He. apply (next_round_unremembered sh).
  rewrite <- get_new_word_shown. apply elem_of_app. by right.
Qed.

Lemma queue_clean_handle ev env s :
  engine_inv s -> queue_clean s -> queue_clean (state_of (handle ev env s)).
Proof.
  intros [Hsub _] Hclean.
  destruct (clears ev env) eqn:Hc.
  - destruct (handle_clears ev env s Hc) as [->|[->|[nv ->]]];
      intros _; apply get_new_word_queue_clean.
  - destruct (handle_within ev env s Hc)
      as [[_ ->]|[_ [->|[[_ ->]|(c & Hcur & ->)]]]].
    + intros _. apply get_new_word_queue_clean.
    + done.
    + done.
    + intros Hnd. specialize (Hclean Hnd). cbn in Hnd |- *.
      rewrite Hcur in Hsub. cbn in Hsub.
      assert (Hnd' : NoDup (word <$> c :: round_list s)).
      { apply (submseteq_NoDup _ (word <$> words s)); [|done]. by rewrite Hsub. }
      rewrite fmap_cons in Hnd'. apply NoDup_cons in Hnd' as [Hnotin _].
      rewrite Forall_forall in Hclean. apply Forall_forall. intros e He.
      unfold unremembered. rewrite elem_of_union, elem_of_singleton.
      intros [Heq|Hin]; [|by apply (Hclean e He)].
      apply Hnotin. rewrite <- Heq. by apply list_elem_of_fmap_2.
Qed.

(** X25: in every state the program reaches in which the words of the list
    are distinct, no entry waiting in the queue is remembered: marking the
    displayed word never leaves a remembered word in the queue. *)
Theorem queue_never_remembered (s : State) :
  reachable s ->
  NoDup (word <$> words s) ->
  Forall (unremembered (remembered_words s)) (round_list s).
Proof.
  rewrite reachable_run. intros (f & env0 & evs & ->).
  assert (H0 : engine_inv (after_main env0 (module_globals f))
               /\ queue_clean (after_main env0 (module_globals f))).
  { split.
    - apply engine_inv_shuffled_round, sublist_submseteq, sublist_filter.
    - intros _. unfold after_main. apply get_new_word_queue_clean. }
  revert H0. generalize (after_main env0 (module_globals f)).
  induction evs as [|[ev env] evs IH]; intros s [Hinv Hclean]; [exact Hclean|].
  rewrite run_cons. apply IH. split.
  - by apply engine_inv_handle.
  - by apply queue_clean_handle.
Qed.

Lemma queue_never_remembered_witness :
  Forall (unremembered (remembered_words Sample.cat_marked))
         (round_list Sample.cat_marked).
Proof.
  apply (queue_never_remembered Sample.cat_marked).
  - apply (sample_reachable [Sample.press key_space]).
  - apply (bool_decide_unpack _). vm_compute. exact I.
Defined.

(** X26: in every state the program reaches, the displayed entry and the
    entries of the queue are entries of the list, none taken more often
    than the list has it: when the list has no row twice, no entry is
    queued twice and the displayed entry is not in the queue. *)
Theorem queue_drawn_from_words (s : State) :
  reachable s ->
  option_list (current s) ++ round_list s ⊆+ words s
  /\ (forall c, current s = Some c -> c ∈ words s)
  /\ (NoDup (words s) ->
      NoDup (round_list s) /\ forall c, current s = Some c -> c ∉ round_list s).
Proof.
  intros Hs. destruct (engine_inv_reachable s Hs) as [Hsub _].
  split; [done|]. split.
  - intros c Hc. apply (elem_of_submseteq _ _ c) in Hsub; [done|].
    rewrite Hc. left.
  - intros Hnd. pose proof (submseteq_NoDup _ _ Hsub Hnd) as Hnd'.
    apply NoDup_app in Hnd' as (_ & Hdisj & Hq). split; [done|].
    intros c Hc. apply Hdisj. rewrite Hc. left.
Qed.

Lemma queue_drawn_from_words_witness :
  option_list (current Sample.started) ++ round_list Sample.started
    ⊆+ words Sample.started
  /\ (forall c, current Sample.started = Some c -> c ∈ words Sample.started)
  /\ (NoDup (words Sample.started) ->
      NoDup (round_list Sample.started)
      /\ forall c, current Sample.started = Some c -> c ∉ round_list Sample.started).
Proof.
  exact (queue_drawn_from_words Sample.started (sample_reachable [])).
Defined.

(* ===================================================================== *)
(** * Properties of the font fitting *)
(* ===================================================================== *)

Section Wrap.
Variables (measure_text : pystr -> Z) (max_width : Z).

Lemma wrap_loop_concat text lines current_line :
  let '(lines', current_line') :=
    wrap_loop measure_text max_width text lines current_line in
  concat lines' ++ current_line' = concat lines ++ current_line ++ text.
Proof.
  revert lines current_line.
  induction text as [|char text IH]; intros lines current_line; cbn.
  - by rewrite app_nil_r.
  - destruct (measure_text (current_line ++ [char]) <=? max_width)%Z.
    + specialize (IH lines (current_line ++ [char])).
      destruct (wrap_loop _ _ text lines _) as [lines' current_line'].
      by rewrite IH, <- !app_assoc.
    + specialize (IH (lines ++ [current_line]) [char]).
      destruct (wrap_loop _ _ text _ _) as [lines' current_line'].
      rewrite IH, concat_app. cbn. by rewrite app_nil_r, <- !app_assoc.
Qed.

Lemma wrap_loop_prefix text lines current_line :
  exists more,
    (wrap_loop measure_text max_width text lines current_line).1 = lines ++ more.
Proof.
  revert lines current_line.
  induction text as [|char text IH]; intros lines current_line; cbn.
  - exists []. by rewrite app_nil_r.
  - destruct (measure_text (current_line ++ [char]) <=? max_width)%Z; [apply IH|].
    destruct (IH (lines ++ [current_line]) [char]) as [more Hm].
    exists ([current_line] ++ more). by rewrite Hm, <- app_assoc.
Qed.

Lemma wrap_loop_fit text lines current_line :
  Forall (fun c => (measure_text [c] <= max_width)%Z) text ->
  Forall (fun l => l <> [] /\ (measure_text l <= max_width)%Z) lines ->
  (current_line = [] \/ (measure_text current_line <= max_width)%Z) ->
  let '(lines', current_line') :=
    wrap_loop measure_text max_width text lines current_line in
  Forall (fun l => l <> [] /\ (measure_text l <= max_width)%Z) lines'
  /\ (current_line' = [] \/ (measure_text current_line' <= max_width)%Z).
Proof.
  revert lines current_line.
  induction text as [|char text IH]; intros lines current_line Htext Hlines Hcur;
    cbn; [done|].
  apply Forall_cons in Htext as [Hchar Htext].
  destruct (measure_text (current_line ++ [char]) <=? max_width)%Z eqn:Hm.
  - apply IH; [done|done|]. right. lia.
  - apply IH; [done| |by right].
    apply Forall_app. split; [done|]. apply Forall_singleton.
    destruct Hcur as [->|Hcur]; [cbn in Hm; lia|].
    split; [|done]. intros ->. cbn in Hm. lia.
Qed.

End Wrap.

Lemma wrapped_lines_concat_eq (measure_text : pystr -> Z) (max_width : Z)
    (text : pystr) :
  concat (wrapped_lines measure_text max_width text) = text.
Proof.
  unfold wrapped_lines.
  pose proof (wrap_loop_concat measure_text max_width text [] []) as H.
  destruct (wrap_loop measure_text max_width text [] []) as [lines current_line].
  cbn in H. destruct current_line; [by rewrite app_nil_r in H|].
  by rewrite concat_app; cbn; rewrite app_nil_r.
Qed.

(** X16: the lines [get_wrapped_height] counts are the text cut in pieces:
    put end to end they give back the text, no character lost, added or
    moved. *)
Theorem wrapped_lines_concat (measure_text : pystr -> Z) (max_width : Z)
    (text : pystr) :
  concat (wrapped_lines measure_text max_width text) = text.
Proof. apply wrapped_lines_concat_eq. Qed.

Lemma concat_length_nonempty {A} (ls : list (list A)) :
  Forall (fun l => l <> []) ls -> length ls <= length (concat ls).
Proof.
  induction 1 as [|l ls Hl _ IH]; cbn; [done|].
  rewrite length_app. destruct l; [done|]. cbn. lia.
Qed.

(** X17: when every character of the text is by itself no wider than the
    width, every line counted is non-empty and no wider than the width,
    and there are at most as many lines as characters. *)
Theorem wrapped_lines_fit (measure_text : pystr -> Z) (max_width : Z)
    (text : pystr) :
  Forall (fun c => (measure_text [c] <= max_width)%Z) text ->
  Forall (fun l => l <> [] /\ (measure_text l <= max_width)%Z)
         (wrapped_lines measure_text max_width text)
  /\ length (wrapped_lines measure_text max_width text) <= length text.
Proof.
  intros Htext.
  assert (Hfit : Forall (fun l => l <> [] /\ (measure_text l <= max_width)%Z)
                        (wrapped_lines measure_text max_width text)).
  { unfold wrapped_lines.
    pose proof (wrap_loop_fit measure_text max_width text [] [] Htext
                  (Forall_nil_2 _) (or_introl eq_refl)) as H.
    destruct (wrap_loop measure_text max_width text [] []) as [lines current_line].
    destruct H as [Hlines Hcur]. destruct current_line as [|c l]; [done|].
    apply Forall_app. split; [done|]. apply Forall_singleton.
    destruct Hcur as [|Hcur]; done. }
  split; [done|].
  rewrite <- (wrapped_lines_concat_eq measure_text max_width text) at 2.
  apply concat_length_nonempty. eapply Forall_impl; [exact Hfit|]. by intros l [? _].
Qed.

Lemma wrapped_lines_fit_witness :
  Forall (fun c => (measure square_font 10 [c] <= 25)%Z) (py "cat")
  /\ Forall (fun l => l <> [] /\ (measure square_font 10 l <= 25)%Z)
            (wrapped_lines (measure square_font 10) 25 (py "cat"))
  /\ length (wrapped_lines (measure square_font 10) 25 (py "cat"))
     <= length (py "cat").
Proof.
  assert (H : Forall (fun c => (measure square_font 10 [c] <= 25)%Z) (py "cat")).
  { repeat constructor; cbn; lia. }
  split; [exact H|].
  exact (wrapped_lines_fit (measure square_font 10) 25 (py "cat") H).
Defined.

(** X18: a text whose first character is by itself wider than the width
    gets an empty first line, which [get_wrapped_height] counts like any
    other: such a text of one character counts as two lines. *)
Theorem wide_first_character (font : Font) (size : Z) (max_width : Z)
    (c : N) (text : pystr) :
  (max_width < measure font size [c])%Z ->
  head (wrapped_lines (measure font size) max_width (c :: text)) = Some []
  /\ get_wrapped_height [c] font size max_width = (2 * linespace font size)%Z.
Proof.
  intros Hwide.
  assert (Hm : (measure font size ([] ++ [c]) <=? max_width)%Z = false)
    by (cbn; lia).
  split.
  - unfold wrapped_lines. cbn [wrap_loop]. rewrite Hm.
    destruct (wrap_loop_prefix (measure font size) max_width text ([] ++ [[]]) [c])
      as [more Hmore].
    destruct (wrap_loop (measure font size) max_width text ([] ++ [[]]) [c])
      as [lines current_line].
    cbn in Hmore. subst lines. by destruct current_line.
  - unfold get_wrapped_height, wrapped_lines. cbn [wrap_loop]. rewrite Hm.
    cbn. lia.
Qed.

Lemma wide_first_character_witness :
  (5 < measure square_font 10 [99%N])%Z
  /\ head (wrapped_lines (measure square_font 10) 5 (99%N :: py "at")) = Some []
  /\ get_wrapped_height [99%N] square_font 10 5 = (2 * linespace square_font 10)%Z.
Proof.
  assert (H : (5 < measure square_font 10 [99%N])%Z) by (cbn; lia).
  split; [exact H|].
  exact (wide_first_character square_font 10 5 99%N (py "at") H).
Defined.

Lemma adjust_loop_spec text available_width available_height font fuel size :
  Z.to_nat (size - 1) <= fuel ->
  let r := adjust_loop fuel text available_width available_height font size in
  ((size <= 1)%Z -> r = size)
  /\ ((1 < size)%Z ->
      (1 <= r <= size)%Z
      /\ ((1 < r)%Z -> fits text font available_width available_height r = true)
      /\ (forall k, (r < k <= size)%Z ->
                    fits text font available_width available_height k = false)).
Proof.
  revert size. induction fuel as [|fuel IH]; intros size Hfuel; cbn.
  - split; [done|]. lia.
  - destruct (1 <? size)%Z eqn:Hsize; [|split; [done|lia]].
    split; [lia|]. intros _.
    destruct (fits text font available_width available_height size) eqn:Hfits.
    + split; [lia|]. split; [done|]. lia.
    + destruct (IH (size - 1)%Z) as [Hsmall Hbig]; [lia|].
      destruct (decide (size - 1 <= 1)%Z) as [Hle|Hgt].
      * rewrite (Hsmall Hle). split; [lia|]. split; [lia|].
        intros k Hk. by replace k with size by lia.
      * destruct Hbig as (Hr & Hfit & Hmax); [lia|].
        split; [lia|]. split; [done|].
        intros k Hk. destruct (decide (k = size)) as [->|Hne]; [done|].
        apply Hmax. lia.
Qed.

(** X19: started above 1, [adjust_font_size] returns a size between 1 and
    the initial size: the largest size, from the initial one down to 2, at
    which the wrapped text is no higher than the height available, and 1
    when there is none (whether or not the text fits at size 1).  More
    turns of the loop than [initial_size - 1] change nothing. *)
Theorem adjust_font_size_largest (text : pystr) (available_width : Z)
    (available_height : QArith_base.Q) (font : Font) (initial_size : Z) :
  (1 < initial_size)%Z ->
  let r := adjust_font_size text available_width available_height font
                            initial_size in
  (1 <= r <= initial_size)%Z
  /\ ((1 < r)%Z -> fits text font available_width available_height r = true)
  /\ (forall k, (r < k <= initial_size)%Z ->
                fits text font available_width available_height k = false)
  /\ (forall fuel, Z.to_nat (initial_size - 1) <= fuel ->
        adjust_loop fuel text available_width available_height font initial_size
        = r).
Proof.
  intros Hinit r. subst r. unfold adjust_font_size.
  destruct (adjust_loop_spec text available_width available_height font
              (Z.to_nat (initial_size - 1)) initial_size (le_n _)) as [_ H].
  destruct (H Hinit) as (Hr & Hfit & Hmax).
  set (r := adjust_loop (Z.to_nat (initial_size - 1)) text available_width
                        available_height font initial_size) in *.
  split; [exact Hr|]. split; [exact Hfit|]. split; [exact Hmax|].
  intros fuel Hfuel.
  destruct (adjust_loop_spec text available_width available_height font
              fuel initial_size Hfuel) as [_ H'].
  destruct (H' Hinit) as (Hr' & Hfit' & Hmax').
  set (r' := adjust_loop fuel text available_width available_height font
                         initial_size) in *.
  destruct (Z.lt_trichotomy r' r) as [Hlt|[Heq|Hgt]]; [|done|].
  - assert (Hf : fits text font available_width available_height r = true)
      by (apply Hfit; lia).
    rewrite (Hmax' r) in Hf; [done|lia].
  - assert (Hf : fits text font available_width available_height r' = true)
      by (apply Hfit'; lia).
    rewrite (Hmax r') in Hf; [done|lia].
Qed.

Lemma adjust_font_size_largest_witness :
  let r := adjust_font_size (py "cat") 100 (QArith_base.Qmake 75 2)
                            square_font 100 in
  (1 <= r <= 100)%Z
  /\ ((1 < r)%Z -> fits (py "cat") square_font 100 (QArith_base.Qmake 75 2) r = true)
  /\ (forall k, (r < k <= 100)%Z ->
                fits (py "cat") square_font 100 (QArith_base.Qmake 75 2) k = false)
  /\ (forall fuel, Z.to_nat (100 - 1) <= fuel ->
        adjust_loop fuel (py "cat") 100 (QArith_base.Qmake 75 2) square_font 100
        = r).
Proof.
  apply (adjust_font_size_largest (py "cat") 100 (QArith_base.Qmake 75 2)
           square_font 100).
  lia.
Defined.

(** X20: started at 1 or below, [adjust_font_size] tries no size and
    returns the initial size as it is, zero and negative sizes
    included. *)
Theorem adjust_font_size_small (text : pystr) (available_width : Z)
    (available_height : QArith_base.Q) (font : Font) (initial_size : Z) :
  (initial_size <= 1)%Z ->
  adjust_font_size text available_width available_height font initial_size
  = initial_size.
Proof.
  intros Hinit.
  by destruct (adjust_loop_spec text available_width available_height font
                 (Z.to_nat (initial_size - 1)) initial_size (le_n _)) as [H _];
    apply H.
Qed.

Lemma adjust_font_size_small_witness :
  adjust_font_size (py "cat") 100 (QArith_base.Qmake 75 2) square_font 0 = 0%Z.
Proof.
  apply (adjust_font_size_small (py "cat") 100 (QArith_base.Qmake 75 2)
           square_font 0).
  lia.
Defined.

(** X21: the empty text has no line, so it fits any height that is not
    negative: [adjust_font_size] returns the initial size. *)
Theorem adjust_font_size_empty_text (available_width : Z)
    (available_height : QArith_base.Q) (font : Font) (initial_size : Z) :
  QArith_base.Qle (QArith_base.inject_Z 0) available_height ->
  get_wrapped_height [] font initial_size available_width = 0%Z
  /\ adjust_font_size [] available_width available_height font initial_size
     = initial_size.
Proof.
  intros Hh. split; [reflexivity|].
  unfold adjust_font_size.
  destruct (Z.to_nat (initial_size - 1)) as [|fuel]; [reflexivity|]. cbn [adjust_loop].
  destruct (1 <? initial_size)%Z; [|reflexivity].
  assert (Hfits : fits [] font available_width available_height initial_size = true).
  { unfold fits. apply QArith_base.Qle_bool_iff. exact Hh. }
  by rewrite Hfits.
Qed.

Lemma adjust_font_size_empty_text_witness :
  QArith_base.Qle (QArith_base.inject_Z 0) (QArith_base.Qmake 75 2)
  /\ get_wrapped_height [] square_font 100 100 = 0%Z
  /\ adjust_font_size [] 100 (QArith_base.Qmake 75 2) square_font 100 = 100%Z.
Proof.
  assert (H : QArith_base.Qle (QArith_base.inject_Z 0) (QArith_base.Qmake 75 2)).
  { unfold QArith_base.Qle. cbn. lia. }
  split; [exact H|].
  exact (adjust_font_size_empty_text 100 (QArith_base.Qmake 75 2) square_font 100 H).
Defined.

(* ===================================================================== *)
(** * Properties of the display *)
(* ===================================================================== *)

Lemma update_display_eq g :
  update_display g = Returns tt (mkGui (engine g) (shown_labels (engine g))).
Proof.
  unfold update_display, shown_labels. destruct (current (engine g)); reflexivity.
Qed.

Lemma on_engine_returns {A} (m : M State A) a s' g :
  m (engine g) = Returns a s' -> on_engine m g = Returns a (mkGui s' (labels g)).
Proof. unfold on_engine. by intros ->. Qed.

Lemma gui_eta g : mkGui (engine g) (labels g) = g.
Proof. by destruct g. Qed.

(** A callback of the window does to the engine what the callback of the
    engine does, and leaves the labels as [update_display] sets them if
    they were so before. *)
Lemma handle_gui_eq ev env g :
  labels g = shown_labels (engine g) ->
  handle_gui ev env g
  = Returns tt (mkGui (state_of (handle ev env (engine g)))
                      (shown_labels (state_of (handle ev env (engine g))))).
Proof.
  intros Hsync.
  assert (Hg : g = mkGui (engine g) (shown_labels (engine g)))
    by (by rewrite <- Hsync, gui_eta).
  destruct ev as [event| | |new_value]; cbn [handle_gui handle].
  - unfold on_key_press_gui, on_key_press.
    repeat case_bool_decide; cbn [state_of ret]; try (by rewrite <- Hg).
    + destruct (current (engine g)) as [c|]; cbn [state_of ret]; [|by rewrite <- Hg].
      destruct (revealed (engine g)); cbn [negb];
        unfold bind, on_engine, modify; by rewrite update_display_eq.
    + destruct (current (engine g)) as [c|]; cbn [state_of ret]; [|by rewrite <- Hg].
      unfold bind, on_engine, modify. cbn [engine labels].
      rewrite !save_progress_eq. by rewrite update_display_eq.
    + destruct (current (engine g)) as [c|]; cbn [state_of ret]; [|by rewrite <- Hg].
      destruct (revealed (engine g)); cbn [state_of ret]; [|by rewrite <- Hg].
      unfold bind, on_engine, modify; by rewrite update_display_eq.
    + unfold reset_current_gui. rewrite reset_current_eq.
      destruct (askyesno env) eqn:Hask; cbn [state_of ret]; [|by rewrite <- Hg].
      unfold bind, on_engine. rewrite reset_current_eq, Hask.
      by rewrite update_display_eq.
    + unfold reset_all_gui. rewrite reset_all_eq.
      destruct (askyesno env) eqn:Hask; cbn [state_of ret]; [|by rewrite <- Hg].
      unfold bind, on_engine. rewrite reset_all_eq, Hask.
      by rewrite update_display_eq.
  - unfold reset_current_gui. rewrite reset_current_eq.
    destruct (askyesno env) eqn:Hask; cbn [state_of ret]; [|by rewrite <- Hg].
    unfold bind, on_engine. rewrite reset_current_eq, Hask.
    by rewrite update_display_eq.
  - unfold reset_all_gui. rewrite reset_all_eq.
    destruct (askyesno env) eqn:Hask; cbn [state_of ret]; [|by rewrite <- Hg].
    unfold bind, on_engine. rewrite reset_all_eq, Hask.
    by rewrite update_display_eq.
  - unfold on_list_change_gui, bind, on_engine. rewrite on_list_change_eq.
    by rewrite update_display_eq.
Qed.

Lemma mainloop_gui_eq evs g :
  labels g = shown_labels (engine g) ->
  mainloop_gui evs g
  = Returns tt (mkGui (run evs (engine g)) (shown_labels (run evs (engine g)))).
Proof.
  revert g. induction evs as [|[ev env] evs IH]; intros g Hsync.
  - cbn. unfold ret. change (run [] ?x) with x. by rewrite <- Hsync, gui_eta.
  - cbn [mainloop_gui]. unfold bind. rewrite (handle_gui_eq ev env g Hsync).
    rewrite IH by reflexivity. cbn [engine]. by rewrite run_cons.
Qed.

Lemma main_gui_eq env s0 l0 :
  main_gui env (mkGui s0 l0)
  = Returns tt (mkGui (state_of (main env s0))
                      (shown_labels (state_of (main env s0)))).
Proof.
  unfold main_gui, bind, on_engine, modify. cbn [engine labels].
  rewrite main_eq. cbn [engine state_of]. by rewrite update_display_eq.
Qed.

Lemma gui_reachable_eq g :
  gui_reachable g <->
  exists f env0 evs,
    g = mkGui (run evs (state_of (main env0 (module_globals f))))
              (shown_labels (run evs (state_of (main env0 (module_globals f))))).
Proof.
  unfold gui_reachable. split.
  - intros (f & l0 & env0 & evs & H). exists f, env0, evs.
    unfold bind in H. rewrite main_gui_eq in H.
    rewrite mainloop_gui_eq in H by reflexivity. cbn [engine] in H. congruence.
  - intros (f & env0 & evs & ->). exists f, (mkLabels [] [] []), env0, evs.
    unfold bind. rewrite main_gui_eq.
    by rewrite mainloop_gui_eq by reflexivity.
Qed.

(** X22: the window is never stale: whenever [main] and the events that
    follow it have returned, the engine is in the state the callbacks of
    the engine lead to, and the labels show what [update_display] shows
    for that state (calling it once more would change nothing), although
    several branches of the callbacks return without calling it. *)
Theorem display_never_stale (f : progress_file) (l0 : Labels) (env0 : Env)
    (evs : list (Event * Env)) (g : Gui) :
  (main_gui env0 ;; mainloop_gui evs) (mkGui (module_globals f) l0)
  = Returns tt g ->
  engine g = run evs (state_of (main env0 (module_globals f)))
  /\ update_display g = Returns tt g.
Proof.
  unfold bind. rewrite main_gui_eq.
  rewrite mainloop_gui_eq by reflexivity. cbn [engine]. intros [= <-].
  split; [reflexivity|]. by rewrite update_display_eq.
Qed.

Lemma display_never_stale_witness :
  let g := mkGui (run [Sample.press key_return] Sample.started)
                 (shown_labels (run [Sample.press key_return] Sample.started)) in
  (main_gui Sample.quiet ;; mainloop_gui [Sample.press key_return])
    (mkGui (module_globals NoFile) (mkLabels [] [] []))
  = Returns tt g
  /\ engine g = run [Sample.press key_return]
                    (state_of (main Sample.quiet (module_globals NoFile)))
  /\ update_display g = Returns tt g.
Proof.
  intros g.
  assert (H : (main_gui Sample.quiet ;; mainloop_gui [Sample.press key_return])
                (mkGui (module_globals NoFile) (mkLabels [] [] []))
              = Returns tt g).
  { unfold bind. rewrite main_gui_eq.
    by rewrite mainloop_gui_eq by reflexivity. }
  split; [exact H|].
  exact (display_never_stale NoFile (mkLabels [] [] []) Sample.quiet
           [Sample.press key_return] g H).
Defined.

(** X23: in every state of the window the program reaches, a definition is
    on display only after it has been revealed, and then it is the
    definition of the word on display; and when no entry is displayed the
    window says that all words are remembered, shows no definition, and
    every word of the list is indeed remembered. *)
Theorem definition_shown_when_revealed (g : Gui) :
  gui_reachable g ->
  (def_label (labels g) <> [] ->
   revealed (engine g) = true
   /\ exists c, current (engine g) = Some c
                /\ word_label (labels g) = word c
                /\ def_label (labels g) = definition c)
  /\ (current (engine g) = None ->
      word_label (labels g) = text_all_remembered
      /\ def_label (labels g) = []
      /\ all_remembered (engine g)).
Proof.
  rewrite gui_reachable_eq. intros (f & env0 & evs & ->). cbn [engine labels].
  set (s := run evs (state_of (main env0 (module_globals f)))).
  assert (Hreach : reachable s).
  { apply reachable_run. exists f, env0, evs. subst s. by rewrite main_eq. }
  unfold shown_labels. split.
  - destruct (current s) as [c|]; cbn [def_label word_label]; [|done].
    destruct (revealed s); [|done]. intros _. split; [done|]. by exists c.
  - intros Hcur. rewrite Hcur. cbn [def_label word_label]. split_and!; try done.
    by apply (engine_inv_reachable s Hreach).
Qed.

Lemma definition_shown_when_revealed_witness :
  let g := mkGui Sample.round_over (shown_labels Sample.round_over) in
  (def_label (labels g) <> [] ->
   revealed (engine g) = true
   /\ exists c, current (engine g) = Some c
                /\ word_label (labels g) = word c
                /\ def_label (labels g) = definition c)
  /\ (current (engine g) = None ->
      word_label (labels g) = text_all_remembered
      /\ def_label (labels g) = []
      /\ all_remembered (engine g)).
Proof.
  apply (definition_shown_when_revealed
           (mkGui Sample.round_over (shown_labels Sample.round_over))).
  apply gui_reachable_eq.
  exists NoFile, Sample.quiet,
    [Sample.press key_return; Sample.press key_return; Sample.press key_return].
  reflexivity.
Defined.

Lemma space_marks_gui event env g c :
  keysym event = py "space" -> current (engine g) = Some c ->
  on_key_press_gui event env g
  = Returns tt (mkGui (marked (write env) c (engine g))
                      (shown_labels (marked (write env) c (engine g)))).
Proof.
  intros Hk Hc. unfold on_key_press_gui. rewrite Hk.
  rewrite bool_decide_eq_false_2 by (by vm_compute).
  rewrite bool_decide_eq_false_2 by (by vm_compute).
  rewrite bool_decide_eq_true_2 by reflexivity.
  cbv zeta. rewrite Hc. unfold bind, on_engine, modify. cbn [engine labels].
  rewrite !save_progress_eq. by rewrite update_display_eq.
Qed.

(** X24: the space key on a displayed word that was not remembered makes
    the count of remembered words on the progress label one higher, the
    total staying the same; on a word that was remembered already the
    label stays as it would be shown before. *)
Theorem mark_counts_once (event : KeyEvent) (env : Env) (g : Gui) (c : WordEntry) :
  keysym event = py "space" ->
  current (engine g) = Some c ->
  let g' := state_of (on_key_press_gui event env g) in
  (word c ∉ remembered_words (engine g) ->
   progress_label (labels g')
   = text_remembered ++ str_nat (S (size (remembered_words (engine g))))
     ++ text_total ++ str_nat (length (words (engine g))))
  /\ (word c ∈ remembered_words (engine g) ->
      progress_label (labels g') = progress_text (engine g)).
Proof.
  intros Hk Hc g'. subst g'. rewrite (space_marks_gui event env g c Hk Hc).
  cbn [state_of labels].
  assert (Hp : progress_label (shown_labels (marked (write env) c (engine g)))
               = progress_text (marked (write env) c (engine g))).
  { unfold shown_labels. by destruct (current _). }
  rewrite Hp. unfold progress_text. cbn [marked remembered_words words set_disk
    set_progress_data set_remembered_words]. split.
  - intros Hnew. rewrite size_union by (by apply disjoint_singleton_l).
    by rewrite size_singleton.
  - intros Hold.
    by rewrite (subseteq_union_1_L {[word c]} (remembered_words (engine g)))
      by (by apply singleton_subseteq_l).
Qed.

Lemma mark_counts_once_witness :
  let g := mkGui Sample.started (shown_labels Sample.started) in
  let g' := state_of (on_key_press_gui key_space Sample.quiet g) in
  (word Sample.cat ∉ remembered_words (engine g) ->
   progress_label (labels g')
   = text_remembered ++ str_nat (S (size (remembered_words (engine g))))
     ++ text_total ++ str_nat (length (words (engine g))))
  /\ (word Sample.cat ∈ remembered_words (engine g) ->
      progress_label (labels g') = progress_text (engine g)).
Proof.
  apply (mark_counts_once key_space Sample.quiet
           (mkGui Sample.started (shown_labels Sample.started)) Sample.cat).
  - reflexivity.
  - vm_compute. reflexivity.
Defined.
